(** * Seat reservation service (db_3.js): lock / confirm / cancel / sweep

    A shallow embedding of the Express + Mongoose handlers of [db_3.js].

    - A Mongo collection is the list of its documents in natural order.
      [findOne], [updateOne], [findOneAndUpdate] act on the first document
      that matches the filter, [updateMany] on every one of them.
    - The clock is an input: every [new Date()] of a handler is the argument
      [now] (milliseconds since the epoch, as [Date.getTime] gives them).
    - A session transaction works on a private copy of the collection; an
      abort hands back the store as it was when the transaction started and
      a commit installs the copy.
    - Request fields arrive cast to the type their schema path has: an
      [eventId] is an ObjectId, seat numbers and owners are strings.
      [ttlSeconds] has no schema path: it is the JSON number of the body (or
      the default of line 72), a binary64 float, and the expiry is computed
      from it as JavaScript does.
    - The [createdAt]/[updatedAt] stamps that [timestamps: true] asks
      Mongoose to maintain are read by no handler and are left out; so are
      storage failures (the [catch] branches that answer 500), except the
      ones a request raises by its own input: the two of [insertMany], and
      the cast of an Invalid Date as expiry. *)

From Stdlib Require Import List String Ascii ZArith NArith Bool Lia.
From Stdlib Require Import DecimalString Permutation Sorted.
From Stdlib Require Import PrimFloat FloatOps SpecFloat.
Import ListNotations.
Local Open Scope string_scope.
Local Open Scope Z_scope.
Local Open Scope list_scope.

(* ------------------------------------------------------------------ *)
(** ** Data model (the three schemas) *)

Definition ObjectId := N.

Inductive Status := available | locked | booked.

Record Seat := mkSeat {
  eventId : ObjectId;
  seatNumber : string;
  status : Status;
  lockOwner : option string;
  lockExpiresAt : option Z;
  bookingId : option ObjectId
}.

Record Booking := mkBooking {
  b_id : ObjectId;
  b_eventId : ObjectId;
  b_ownerId : string;
  b_seats : list string;
  b_createdAt : Z
}.

Record Event := mkEvent {
  ev_id : ObjectId;
  ev_name : string;
  ev_metadata : string
}.

(** The database: the three collections and the source of fresh ObjectIds. *)
Record World := mkWorld {
  seats : list Seat;
  bookings : list Booking;
  events : list Event;
  nextId : ObjectId
}.

Definition Status_eqb (a b : Status) : bool :=
  match a, b with
  | available, available | locked, locked | booked, booked => true
  | _, _ => false
  end.

Definition Status_eq_dec (a b : Status) : {a = b} + {a <> b}.
Proof. decide equality. Defined.

Definition Seat_eq_dec (a b : Seat) : {a = b} + {a <> b}.
Proof.
  decide equality;
    try apply N.eq_dec; try apply string_dec; try apply Status_eq_dec;
    decide equality; try apply N.eq_dec; try apply string_dec; apply Z.eq_dec.
Defined.

(* ------------------------------------------------------------------ *)
(** ** The collection operations the handlers call *)

Section Collection.
Context {Doc : Type}.

(** [Model.findOne(filter)]: the first matching document, or null. *)
Fixpoint findOne (filter : Doc -> bool) (coll : list Doc) : option Doc :=
  match coll with
  | [] => None
  | d :: rest => if filter d then Some d else findOne filter rest
  end.

(** [Model.updateOne(filter, update)]: the first matching document is
    replaced by its update; no match, no change. *)
Fixpoint updateOne (filter : Doc -> bool) (update : Doc -> Doc)
         (coll : list Doc) : list Doc :=
  match coll with
  | [] => []
  | d :: rest =>
      if filter d then update d :: rest
      else d :: updateOne filter update rest
  end.

(** [Model.findOneAndUpdate(filter, update, { new: true })]: as
    [updateOne], and the updated document is returned; null when nothing
    matches. *)
Definition findOneAndUpdate (filter : Doc -> bool) (update : Doc -> Doc)
           (coll : list Doc) : option (Doc * list Doc) :=
  match findOne filter coll with
  | None => None
  | Some d => Some (update d, updateOne filter update coll)
  end.

(** [Model.updateMany(filter, update)]: every matching document is
    updated; [modifiedCount] counts the matching documents that the
    update really changed. *)
Fixpoint updateMany (eq_dec : forall a b : Doc, {a = b} + {a <> b})
         (filter : Doc -> bool) (update : Doc -> Doc)
         (coll : list Doc) : nat * list Doc :=
  match coll with
  | [] => (O, [])
  | d :: rest =>
      let (n, rest') := updateMany eq_dec filter update rest in
      if filter d
      then ((if eq_dec (update d) d then n else S n), update d :: rest')
      else (n, d :: rest')
  end.
End Collection.

(* ------------------------------------------------------------------ *)
(** ** Responses *)

Inductive StoreError :=
| ValidationFailed   (* a required path is empty *)
| DuplicateKey       (* E11000 on the (eventId, seatNumber) index *)
| CastFailed.        (* Cast to date failed for value "Invalid Date" *)

Inductive Body :=
| ErrorBody (error : string)
| StoreErrorBody (error : StoreError)
| EventBody (event : Event)
| LockedSeatsBody (lockedSeats : list Seat)
| BookingBody (booking : Booking)
| CancelledBody (cancelled : list string).

Record Response := mkResponse { code : Z; body : Body }.

Definition cat (a b : string) : string := String.append a b.
Infix "+++" := cat (at level 60, right associativity).

(** JS truthiness of a string: only the empty string is falsy. *)
Definition truthy (s : string) : bool :=
  match s with EmptyString => false | _ => true end.

Definition isEmpty {A} (l : list A) : bool :=
  match l with [] => true | _ => false end.

(* ------------------------------------------------------------------ *)
(** ** Filters and updates, as the handlers write them *)

(** [{ eventId, seatNumber }] *)
Definition seatKey (e : ObjectId) (sn : string) (s : Seat) : bool :=
  N.eqb (eventId s) e && String.eqb (seatNumber s) sn.

(** [{ lockExpiresAt: { $lte: now } }]: a null date matches no range. *)
Definition expires_lte (now : Z) (s : Seat) : bool :=
  match lockExpiresAt s with Some t => t <=? now | None => false end.

(** [{ lockExpiresAt: { $gt: now } }] *)
Definition expires_gt (now : Z) (s : Seat) : bool :=
  match lockExpiresAt s with Some t => now <? t | None => false end.

Definition optString_eqb (a : option string) (b : string) : bool :=
  match a with Some x => String.eqb x b | None => false end.

(** lock, lines 84-91 *)
Definition lockFilter (e : ObjectId) (sn : string) (now : Z) (s : Seat) : bool :=
  seatKey e sn s &&
  (Status_eqb (status s) available
   || (Status_eqb (status s) locked && expires_lte now s)).

(** lock, lines 92-94 *)
Definition lockUpdate (ownerId : string) (expiresAt : Z) (s : Seat) : Seat :=
  {| eventId := eventId s; seatNumber := seatNumber s;
     status := locked; lockOwner := Some ownerId;
     lockExpiresAt := Some expiresAt; bookingId := None |}.

(** confirm, lines 130-136 *)
Definition confirmFilter (e : ObjectId) (sn ownerId : string) (now : Z)
           (s : Seat) : bool :=
  seatKey e sn s && Status_eqb (status s) locked
  && optString_eqb (lockOwner s) ownerId && expires_gt now s.

(** confirm, line 152 *)
Definition bookUpdate (bid : ObjectId) (s : Seat) : Seat :=
  {| eventId := eventId s; seatNumber := seatNumber s;
     status := booked; lockOwner := None;
     lockExpiresAt := None; bookingId := Some bid |}.

(** cancel, line 194, and cleanupExpiredLocks, line 228: [bookingId] is not
    in the [$set]. *)
Definition releaseUpdate (s : Seat) : Seat :=
  {| eventId := eventId s; seatNumber := seatNumber s;
     status := available; lockOwner := None;
     lockExpiresAt := None; bookingId := bookingId s |}.

(** cleanupExpiredLocks, line 227 *)
Definition expiredFilter (now : Z) (s : Seat) : bool :=
  Status_eqb (status s) locked && expires_lte now s.

(* ------------------------------------------------------------------ *)
(** ** POST /events *)

(** A seat as [Seat.insertMany] builds it from [{ eventId, seatNumber }]:
    every other path takes its schema default. *)
Definition newSeat (e : ObjectId) (sn : string) : Seat :=
  {| eventId := e; seatNumber := sn; status := available;
     lockOwner := None; lockExpiresAt := None; bookingId := None |}.

(** Ordered insert under the unique (eventId, seatNumber) index: the
    documents go in one by one and the first clash stops the insert,
    leaving the earlier ones in. *)
Fixpoint insertOrdered (docs : list Seat) (coll : list Seat)
  : option StoreError * list Seat :=
  match docs with
  | [] => (None, coll)
  | d :: rest =>
      match findOne (seatKey (eventId d) (seatNumber d)) coll with
      | Some _ => (Some DuplicateKey, coll)
      | None => insertOrdered rest (coll ++ [d])
      end
  end.

(** [Seat.insertMany(docs)]: Mongoose validates every document first
    ([seatNumber] is required, and an empty string does not satisfy
    [required]); with one invalid document nothing is sent. *)
Definition insertMany (docs : list Seat) (coll : list Seat)
  : option StoreError * list Seat :=
  if forallb (fun d => truthy (seatNumber d)) docs
  then insertOrdered docs coll
  else (Some ValidationFailed, coll).

Definition createEvent (name metadata : string) (seatNumbers : list string)
           (w : World) : Response * World :=
  if negb (truthy name) then (mkResponse 400 (ErrorBody "name required"), w)
  else
    let event := mkEvent (nextId w) name metadata in
    let w1 := mkWorld (seats w) (bookings w) (events w ++ [event])
                      (N.succ (nextId w)) in
    let newSeats := map (fun sn => newSeat (ev_id event) sn) seatNumbers in
    if isEmpty newSeats then (mkResponse 201 (EventBody event), w1)
    else
      match insertMany newSeats (seats w1) with
      | (None, coll) =>
          (mkResponse 201 (EventBody event),
           mkWorld coll (bookings w1) (events w1) (nextId w1))
      | (Some err, coll) =>
          (mkResponse 500 (StoreErrorBody err),
           mkWorld coll (bookings w1) (events w1) (nextId w1))
      end.

(* ------------------------------------------------------------------ *)
(** ** Dates *)

(** [date.getTime()]: the time value of a Date, an integral number of
    milliseconds, as a JS number. *)
Definition getTime (t : Z) : float :=
  SF2Prim (binary_normalize prec emax t 0 false).

(** ToIntegerOrInfinity on a finite number: the fraction is dropped, towards
    zero.  A finite float is [m * 2^e], negated when [s]. *)
Definition toInteger (x : float) : option Z :=
  match Prim2SF x with
  | S754_zero _ => Some 0
  | S754_finite s m e =>
      let a := Z.shiftl (Zpos m) e in Some (if s then - a else a)
  | S754_infinity _ | S754_nan => None
  end.

(** [new Date(value)], which is TimeClip: a value that is not finite or
    lies beyond 8.64e15 ms of the epoch gives Invalid Date ([None]); any
    other value is cut to the millisecond. *)
Definition newDate (value : float) : option Z :=
  if PrimFloat.ltb 8.64e15%float (PrimFloat.abs value) then None
  else toInteger value.

(** Line 77: [new Date(now.getTime() + ttlSeconds * 1000)], in binary64
    arithmetic. *)
Definition lockExpiry (now : Z) (ttlSeconds : float) : option Z :=
  newDate (PrimFloat.add (getTime now) (PrimFloat.mul ttlSeconds 1000%float)).

(* ------------------------------------------------------------------ *)
(** ** POST /events/:eventId/lock *)

(** The [for] loop of lines 83-102, run on the transaction's copy [tx].
    [inl r]: the transaction was aborted and [r] returned. *)
Fixpoint lockLoop (e : ObjectId) (ownerId : string) (now expiresAt : Z)
         (seatNumbers : list string) (lockedSeats : list Seat)
         (tx : list Seat) : Response + (list Seat * list Seat) :=
  match seatNumbers with
  | [] => inr (lockedSeats, tx)
  | sn :: rest =>
      match findOneAndUpdate (lockFilter e sn now)
                             (lockUpdate ownerId expiresAt) tx with
      | None =>
          inl (mkResponse 409 (ErrorBody ("Seat " +++ sn +++ " unavailable")))
      | Some (seat, tx') =>
          lockLoop e ownerId now expiresAt rest (lockedSeats ++ [seat]) tx'
      end
  end.

(** When [expiresAt] is an Invalid Date, Mongoose's cast of the [$set]
    throws in the first [findOneAndUpdate] (the batch is not empty there)
    before any query is sent; the [catch] of line 106 aborts the transaction
    and answers 500. *)
Definition lock (e : ObjectId) (seatNumbers : list string) (ownerId : string)
           (ttlSeconds : float) (now : Z) (w : World) : Response * World :=
  if isEmpty seatNumbers
  then (mkResponse 400 (ErrorBody "seatNumbers required"), w)
  else if negb (truthy ownerId)
  then (mkResponse 400 (ErrorBody "ownerId required"), w)
  else
    match lockExpiry now ttlSeconds with
    | None => (mkResponse 500 (StoreErrorBody CastFailed), w)
    | Some expiresAt =>
        match lockLoop e ownerId now expiresAt seatNumbers [] (seats w) with
        | inl r => (r, w)
        | inr (lockedSeats, tx) =>
            (mkResponse 200 (LockedSeatsBody lockedSeats),
             mkWorld tx (bookings w) (events w) (nextId w))
        end
    end.

(* ------------------------------------------------------------------ *)
(** ** POST /events/:eventId/confirm *)

(** The first loop, lines 129-144: reads only. *)
Fixpoint confirmCheck (e : ObjectId) (ownerId : string) (now : Z)
         (seatNumbers : list string) (seatsToBook : list Seat)
         (tx : list Seat) : Response + list Seat :=
  match seatNumbers with
  | [] => inr seatsToBook
  | sn :: rest =>
      match findOne (confirmFilter e sn ownerId now) tx with
      | None =>
          inl (mkResponse 409
                 (ErrorBody ("Seat " +++ sn
                             +++ " is not locked by you or lock expired")))
      | Some seat =>
          confirmCheck e ownerId now rest (seatsToBook ++ [seat]) tx
      end
  end.

(** The second loop, lines 149-155. *)
Fixpoint bookLoop (e : ObjectId) (bid : ObjectId) (seatNumbers : list string)
         (tx : list Seat) : list Seat :=
  match seatNumbers with
  | [] => tx
  | sn :: rest => bookLoop e bid rest (updateOne (seatKey e sn) (bookUpdate bid) tx)
  end.

(** [stamp] is the reading of [Date.now] that fills the Booking's
    [createdAt] default. *)
Definition confirm (e : ObjectId) (seatNumbers : list string) (ownerId : string)
           (now stamp : Z) (w : World) : Response * World :=
  if isEmpty seatNumbers
  then (mkResponse 400 (ErrorBody "seatNumbers required"), w)
  else if negb (truthy ownerId)
  then (mkResponse 400 (ErrorBody "ownerId required"), w)
  else
    match confirmCheck e ownerId now seatNumbers [] (seats w) with
    | inl r => (r, w)
    | inr _ =>
        let booking := mkBooking (nextId w) e ownerId seatNumbers stamp in
        let tx := bookLoop e (b_id booking) seatNumbers (seats w) in
        (mkResponse 201 (BookingBody booking),
         mkWorld tx (bookings w ++ [booking]) (events w) (N.succ (nextId w)))
    end.

(* ------------------------------------------------------------------ *)
(** ** POST /events/:eventId/cancel *)

Fixpoint cancelLoop (e : ObjectId) (ownerId : string)
         (seatNumbers : list string) (tx : list Seat)
  : Response + list Seat :=
  match seatNumbers with
  | [] => inr tx
  | sn :: rest =>
      match findOne (seatKey e sn) tx with
      | None =>
          inl (mkResponse 404 (ErrorBody ("Seat " +++ sn +++ " not found")))
      | Some seat =>
          if Status_eqb (status seat) booked
          then inl (mkResponse 409
                      (ErrorBody ("Seat " +++ sn +++
                        " already booked and cannot be cancelled via this endpoint")))
          else if Status_eqb (status seat) locked
                  && optString_eqb (lockOwner seat) ownerId
          then cancelLoop e ownerId rest
                          (updateOne (seatKey e sn) releaseUpdate tx)
          else inl (mkResponse 409
                      (ErrorBody ("Seat " +++ sn +++ " not locked by you")))
      end
  end.

Definition cancel (e : ObjectId) (seatNumbers : list string) (ownerId : string)
           (w : World) : Response * World :=
  if isEmpty seatNumbers
  then (mkResponse 400 (ErrorBody "seatNumbers required"), w)
  else if negb (truthy ownerId)
  then (mkResponse 400 (ErrorBody "ownerId required"), w)
  else
    match cancelLoop e ownerId seatNumbers (seats w) with
    | inl r => (r, w)
    | inr tx =>
        (mkResponse 200 (CancelledBody seatNumbers),
         mkWorld tx (bookings w) (events w) (nextId w))
    end.

(* ------------------------------------------------------------------ *)
(** ** cleanupExpiredLocks *)

(** The bulk update of lines 226-229: [modifiedCount] and the collection. *)
Definition sweep (now : Z) (coll : list Seat) : nat * list Seat :=
  updateMany Seat_eq_dec (expiredFilter now) releaseUpdate coll.

(** The function returns nothing; what it shows is the console line, written
    only when [modifiedCount > 0]. *)
Definition cleanupExpiredLocks (now : Z) (w : World) : list string * World :=
  let (modifiedCount, coll) := sweep now (seats w) in
  ((if (0 <? modifiedCount)%nat
    then ["cleanupExpiredLocks: released "
            +++ NilZero.string_of_uint (Nat.to_uint modifiedCount)
            +++ " seats"]
    else []),
   mkWorld coll (bookings w) (events w) (nextId w)).

(** The console line of a sweep that modified [n] documents. *)
Definition sweepLog (n : nat) : list string :=
  if (0 <? n)%nat
  then ["cleanupExpiredLocks: released "
          +++ NilZero.string_of_uint (Nat.to_uint n) +++ " seats"]
  else [].

(* ------------------------------------------------------------------ *)
(** ** Requests and runs *)

Inductive Request :=
| CreateEvent (name metadata : string) (seatNumbers : list string)
| Lock (e : ObjectId) (seatNumbers : list string) (ownerId : string)
       (ttlSeconds : float) (now : Z)
| Confirm (e : ObjectId) (seatNumbers : list string) (ownerId : string)
          (now stamp : Z)
| Cancel (e : ObjectId) (seatNumbers : list string) (ownerId : string)
| Sweep (now : Z).

(** The store a request leaves behind. *)
Definition handle (w : World) (r : Request) : World :=
  match r with
  | CreateEvent name metadata sns => snd (createEvent name metadata sns w)
  | Lock e sns o ttl now => snd (lock e sns o ttl now w)
  | Confirm e sns o now stamp => snd (confirm e sns o now stamp w)
  | Cancel e sns o => snd (cancel e sns o w)
  | Sweep now => snd (cleanupExpiredLocks now w)
  end.

Definition run (w : World) (rs : list Request) : World := fold_left handle rs w.

(** The requests named acquire, release and sweep. *)
Definition isLockCancelSweep (r : Request) : bool :=
  match r with
  | Lock _ _ _ _ _ | Cancel _ _ _ | Sweep _ => true
  | _ => false
  end.

Definition emptyWorld : World := mkWorld [] [] [] 0%N.

(* ------------------------------------------------------------------ *)
(** ** Vocabulary of the properties *)

(** The compound index of line 20, [{ eventId: 1, seatNumber: 1 }],
    [unique: true]. *)
Definition keyOf (s : Seat) : ObjectId * string := (eventId s, seatNumber s).

Definition unique_index (coll : list Seat) : Prop := NoDup (map keyOf coll).

(** The seat of an event with a given number. *)
Definition seatAt (e : ObjectId) (sn : string) (coll : list Seat) : option Seat :=
  findOne (seatKey e sn) coll.

(** The field invariant of the Seat record. *)
Definition seat_ok (s : Seat) : Prop :=
  match status s with
  | available =>
      lockOwner s = None /\ lockExpiresAt s = None /\ bookingId s = None
  | locked =>
      lockOwner s <> None /\ lockExpiresAt s <> None /\ bookingId s = None
  | booked =>
      bookingId s <> None /\ lockOwner s = None /\ lockExpiresAt s = None
  end.

(** A lock whose expiry has passed at [now] (the sweep's and acquire's
    [$lte]). *)
Definition stale (now : Z) (s : Seat) : Prop :=
  status s = locked /\ exists t, lockExpiresAt s = Some t /\ t <= now.

(** A lock still running at [now]. *)
Definition validlyLocked (now : Z) (s : Seat) : Prop :=
  status s = locked /\ exists t, lockExpiresAt s = Some t /\ now < t.

Definition acquirable (now : Z) (s : Seat) : Prop :=
  status s = available \/ stale now s.

Definition unavailable (now : Z) (s : Seat) : Prop :=
  status s = booked \/ validlyLocked now s.

Definition heldBy (ownerId : string) (s : Seat) : Prop :=
  status s = locked /\ lockOwner s = Some ownerId.

Definition confirmable (ownerId : string) (now : Z) (s : Seat) : Prop :=
  heldBy ownerId s /\ exists t, lockExpiresAt s = Some t /\ now < t.

(** Every seat of [sns] exists in event [e] and satisfies [P]. *)
Definition eachSeat (P : Seat -> Prop) (e : ObjectId) (sns : list string)
           (coll : list Seat) : Prop :=
  forall sn, In sn sns -> exists d, seatAt e sn coll = Some d /\ P d.

(** The answers that name a seat. *)
Definition conflictUnavailable (sn : string) : Response :=
  mkResponse 409 (ErrorBody ("Seat " +++ sn +++ " unavailable")).

Definition conflictNotConfirmable (sn : string) : Response :=
  mkResponse 409
    (ErrorBody ("Seat " +++ sn +++ " is not locked by you or lock expired")).

Definition notFound (sn : string) : Response :=
  mkResponse 404 (ErrorBody ("Seat " +++ sn +++ " not found")).

Definition conflictBooked (sn : string) : Response :=
  mkResponse 409
    (ErrorBody ("Seat " +++ sn +++
                " already booked and cannot be cancelled via this endpoint")).

Definition conflictNotYours (sn : string) : Response :=
  mkResponse 409 (ErrorBody ("Seat " +++ sn +++ " not locked by you")).

(** The answer of an acquire whose expiry is an Invalid Date. *)
Definition castError : Response := mkResponse 500 (StoreErrorBody CastFailed).

(** The seats of event [e] whose number is in [sns]. *)
Definition inBatch (e : ObjectId) (sns : list string) (s : Seat) : bool :=
  N.eqb (eventId s) e && existsb (String.eqb (seatNumber s)) sns.

(** The collection in which exactly the seats of the batch went through
    [u]. *)
Definition setEach (e : ObjectId) (sns : list string) (u : Seat -> Seat)
           (coll : list Seat) : list Seat :=
  map (fun d => if inBatch e sns d then u d else d) coll.

(** The seat as any successful acquire leaves it. *)
Definition lockedSeat (e : ObjectId) (sn ownerId : string) (expiresAt : Z) : Seat :=
  mkSeat e sn locked (Some ownerId) (Some expiresAt) None.

Definition withSeats (w : World) (coll : list Seat) : World :=
  mkWorld coll (bookings w) (events w) (nextId w).

(** A booked document stays where and what it is. *)
Definition keeps_booked (coll coll' : list Seat) : Prop :=
  forall i d, nth_error coll i = Some d -> status d = booked ->
              nth_error coll' i = Some d.

(** The conditions that the lock and confirm filters put on the seat they
    pin down by its key. *)
Definition lockCond (now : Z) (s : Seat) : bool :=
  Status_eqb (status s) available
  || (Status_eqb (status s) locked && expires_lte now s).

Definition confirmCond (ownerId : string) (now : Z) (s : Seat) : bool :=
  Status_eqb (status s) locked && optString_eqb (lockOwner s) ownerId
  && expires_gt now s.

(** What every [$set] of the handlers has in common: the key paths are not
    in it, and setting twice is setting once. *)
Definition keeps_key (u : Seat -> Seat) : Prop :=
  forall d, keyOf (u d) = keyOf d.

Definition idempotent (u : Seat -> Seat) : Prop :=
  forall d, u (u d) = u d.

(* ------------------------------------------------------------------ *)
(** ** Sample stores *)

Definition seatA : Seat := newSeat 0%N "A".
Definition seatB_stale : Seat := lockedSeat 0%N "B" "u1" 50.
Definition seatC_held : Seat := lockedSeat 0%N "C" "u2" 500.
Definition seatD_booked : Seat := mkSeat 0%N "D" booked None None (Some 7%N).

Definition sampleWorld : World :=
  mkWorld [seatA; seatB_stale; seatC_held; seatD_booked] [] [mkEvent 0%N "E" ""] 8%N.

(** The store of the specification's scenarios: event E with seats A1, A2. *)
Definition scenarioWorld : World :=
  snd (createEvent "E" "" ["A1"; "A2"] emptyWorld).

(* ------------------------------------------------------------------ *)
(** ** GET /events/:eventId/seats *)

(** [{ eventId }] *)
Definition ofEvent (e : ObjectId) (s : Seat) : bool := N.eqb (eventId s) e.

(** [Model.find(filter)]: every matching document, in natural order. *)
Definition find {Doc : Type} (filter : Doc -> bool) (coll : list Doc) : list Doc :=
  List.filter filter coll.

(** [.sort({ seatNumber: 1 })]: ascending; without a collation MongoDB
    compares strings byte by byte, as [String.leb] does. *)
Fixpoint insertBySeatNumber (s : Seat) (sorted : list Seat) : list Seat :=
  match sorted with
  | [] => [s]
  | x :: rest =>
      if String.leb (seatNumber s) (seatNumber x) then s :: sorted
      else x :: insertBySeatNumber s rest
  end.

Definition sortBySeatNumber (l : list Seat) : list Seat :=
  fold_right insertBySeatNumber [] l.

(** The status and the [seats] of the body; [res.json] answers 200. *)
Definition listSeats (e : ObjectId) (w : World) : Z * list Seat :=
  (200, sortBySeatNumber (find (ofEvent e) (seats w))).

(* ------------------------------------------------------------------ *)
(** ** Vocabulary of the further properties *)

Definition sweepWorld (now : Z) (w : World) : World :=
  snd (cleanupExpiredLocks now w).

(** The seat of a booking, as confirm leaves it. *)
Definition bookedUnder (bk : Booking) (sn : string) : Seat :=
  mkSeat (b_eventId bk) sn booked None None (Some (b_id bk)).

(** Every booking has its seats marked booked under its id. *)
Definition bookings_hold (w : World) : Prop :=
  forall bk sn, In bk (bookings w) -> In sn (b_seats bk) ->
    seatAt (b_eventId bk) sn (seats w) = Some (bookedUnder bk sn).

(** Every booked seat is listed by a booking of the store. *)
Definition booked_have_booking (w : World) : Prop :=
  forall d, In d (seats w) -> status d = booked ->
    exists bk, In bk (bookings w) /\ bookingId d = Some (b_id bk)
               /\ b_eventId bk = eventId d /\ In (seatNumber d) (b_seats bk).

(** Requests that cannot end the lease of owner [o] running until [x]:
    those of other owners, and acquires and sweeps whose clock is before
    [x]. *)
Definition leavesLease (o : string) (x : Z) (r : Request) : bool :=
  match r with
  | CreateEvent _ _ _ => true
  | Lock _ _ _ _ now => now <? x
  | Confirm _ _ o' _ _ => negb (String.eqb o' o)
  | Cancel _ _ o' => negb (String.eqb o' o)
  | Sweep now => now <? x
  end.

Definition isCreateEvent (r : Request) : bool :=
  match r with CreateEvent _ _ _ => true | _ => false end.

(** No seat of the store belongs to the event that would be created next. *)
Definition fresh_event (w : World) : Prop :=
  forall d, In d (seats w) -> eventId d <> nextId w.

Definition seatNumber_lt (a b : Seat) : Prop :=
  String.ltb (seatNumber a) (seatNumber b) = true.

(** Every seat belongs to an event of the store. *)
Definition seats_have_event (w : World) : Prop :=
  forall d, In d (seats w) -> exists ev, In ev (events w) /\ ev_id ev = eventId d.

(** The ids of the events are below the next id to be handed out. *)
Definition events_below (w : World) : Prop :=
  forall ev, In ev (events w) -> (ev_id ev < nextId w)%N.

(* ================================================================== *)
(** * Proofs *)

(** ** Collections *)

Section CollectionFacts.
Context {Doc : Type}.
Implicit Types (f g : Doc -> bool) (u : Doc -> Doc) (coll : list Doc).

Lemma findOne_ext f g coll :
  (forall d, In d coll -> f d = g d) -> findOne f coll = findOne g coll.
Proof.
  induction coll as [|d rest IH]; intros E; simpl; [reflexivity|].
  rewrite (E d (or_introl eq_refl)).
  destruct (g d); [reflexivity|].
  apply IH. intros x Hx. apply E. now right.
Qed.

Lemma findOne_Some f coll d :
  findOne f coll = Some d -> In d coll /\ f d = true.
Proof.
  induction coll as [|x rest IH]; simpl; [discriminate|].
  destruct (f x) eqn:Fx.
  - intros [= ->]. auto.
  - intros H. destruct (IH H). auto.
Qed.

Lemma findOne_None f coll :
  findOne f coll = None <-> (forall d, In d coll -> f d = false).
Proof.
  induction coll as [|x rest IH]; simpl.
  - split; [intros _ d []|reflexivity].
  - destruct (f x) eqn:Fx.
    + split; [discriminate|]. intros H.
      rewrite (H x (or_introl eq_refl)) in Fx. discriminate.
    + rewrite IH. split.
      * intros H d [<-|Hd]; auto.
      * intros H d Hd. apply H. now right.
Qed.

Lemma updateOne_length f u coll :
  List.length (updateOne f u coll) = List.length coll.
Proof.
  induction coll as [|x rest IH]; simpl; [reflexivity|].
  destruct (f x); simpl; congruence.
Qed.

Lemma updateOne_no_match f u coll :
  findOne f coll = None -> updateOne f u coll = coll.
Proof.
  induction coll as [|x rest IH]; simpl; [reflexivity|].
  destruct (f x); [discriminate|]. intros H. now rewrite IH.
Qed.

(** A document that the filter rejects is out of [updateOne]'s reach. *)
Lemma updateOne_untouched f u coll i d :
  nth_error coll i = Some d -> f d = false ->
  nth_error (updateOne f u coll) i = Some d.
Proof.
  revert i. induction coll as [|x rest IH]; intros i; simpl.
  - destruct i; discriminate.
  - destruct (f x) eqn:Fx; destruct i as [|i]; simpl; auto.
    intros [= ->]. congruence.
Qed.

(** Only the document that [findOne] returns can change. *)
Lemma updateOne_other f u coll i d hit :
  findOne f coll = Some hit -> nth_error coll i = Some d -> d <> hit ->
  nth_error (updateOne f u coll) i = Some d.
Proof.
  revert i. induction coll as [|x rest IH]; intros i; simpl; [discriminate|].
  destruct (f x) eqn:Fx.
  - intros [= ->]. destruct i as [|i]; simpl; [congruence|auto].
  - intros H. destruct i as [|i]; simpl; auto.
Qed.

Lemma updateOne_Forall (P : Doc -> Prop) f u coll hit :
  Forall P coll -> findOne f coll = Some hit -> P (u hit) ->
  Forall P (updateOne f u coll).
Proof.
  induction 1 as [|x rest Px Hrest IH]; simpl; [discriminate|].
  destruct (f x).
  - intros [= ->] Pu. now constructor.
  - intros H Pu. constructor; auto.
Qed.

Lemma updateOne_Forall_all (P : Doc -> Prop) f u coll :
  Forall P coll -> (forall d, P d -> P (u d)) ->
  Forall P (updateOne f u coll).
Proof.
  induction 1 as [|x rest Px Hrest IH]; simpl; intros Pu; [constructor|].
  destruct (f x); constructor; auto.
Qed.

Variable eq_dec : forall a b : Doc, {a = b} + {a <> b}.

Lemma updateMany_snd f u coll :
  snd (updateMany eq_dec f u coll) =
  map (fun d => if f d then u d else d) coll.
Proof.
  induction coll as [|x rest IH]; simpl; [reflexivity|].
  destruct (updateMany eq_dec f u rest) as [n rest'].
  simpl in IH. subst rest'. now destruct (f x).
Qed.

(** When the update changes every document it matches, [modifiedCount]
    is the number of matches. *)
Lemma updateMany_count f u coll :
  (forall d, In d coll -> f d = true -> u d <> d) ->
  fst (updateMany eq_dec f u coll) = List.length (filter f coll).
Proof.
  induction coll as [|x rest IH]; simpl; intros Hne; [reflexivity|].
  destruct (updateMany eq_dec f u rest) as [n rest'].
  simpl in IH. specialize (IH (fun d Hd => Hne d (or_intror Hd))).
  destruct (f x) eqn:Fx; simpl; [|exact IH].
  destruct (eq_dec (u x) x) as [E|_]; [|now rewrite IH].
  exfalso. exact (Hne x (or_introl eq_refl) Fx E).
Qed.

Lemma updateMany_no_match f u coll :
  (forall d, In d coll -> f d = false) ->
  updateMany eq_dec f u coll = (O, coll).
Proof.
  induction coll as [|x rest IH]; simpl; intros Hno; [reflexivity|].
  rewrite IH by (intros; apply Hno; auto).
  now rewrite (Hno x (or_introl eq_refl)).
Qed.
End CollectionFacts.

(** ** Seats under the unique index *)

Lemma seatKey_spec e sn d : seatKey e sn d = true <-> keyOf d = (e, sn).
Proof.
  unfold seatKey, keyOf. rewrite andb_true_iff, N.eqb_eq, String.eqb_eq.
  split; [intros [-> ->]; reflexivity | intros [= -> ->]; auto].
Qed.

Lemma seatKey_keyOf e sn a b : keyOf a = keyOf b -> seatKey e sn a = seatKey e sn b.
Proof. unfold seatKey, keyOf. now intros [= -> ->]. Qed.

Lemma inBatch_keyOf e sns a b : keyOf a = keyOf b -> inBatch e sns a = inBatch e sns b.
Proof. unfold inBatch, keyOf. now intros [= -> ->]. Qed.

Lemma inBatch_spec e sns d :
  inBatch e sns d = true <-> eventId d = e /\ In (seatNumber d) sns.
Proof.
  unfold inBatch. rewrite andb_true_iff, N.eqb_eq, existsb_exists.
  split.
  - intros [-> [x [Hx E]]]. apply String.eqb_eq in E. now subst.
  - intros [-> Hin]. split; [reflexivity|].
    exists (seatNumber d). split; [assumption|apply String.eqb_refl].
Qed.

Lemma inBatch_one e sn d : inBatch e [sn] d = seatKey e sn d.
Proof. unfold inBatch, seatKey. simpl. now rewrite orb_false_r. Qed.

Lemma inBatch_cons e sn sns d :
  inBatch e (sn :: sns) d = seatKey e sn d || inBatch e sns d.
Proof.
  unfold inBatch, seatKey. simpl.
  destruct (N.eqb (eventId d) e); reflexivity.
Qed.

Lemma lockUpdate_key o x : keeps_key (lockUpdate o x).
Proof. intros d. reflexivity. Qed.

Lemma bookUpdate_key b : keeps_key (bookUpdate b).
Proof. intros d. reflexivity. Qed.

Lemma releaseUpdate_key : keeps_key releaseUpdate.
Proof. intros d. reflexivity. Qed.

Lemma lockUpdate_idem o x : idempotent (lockUpdate o x).
Proof. intros d. reflexivity. Qed.

Lemma bookUpdate_idem b : idempotent (bookUpdate b).
Proof. intros d. reflexivity. Qed.

Lemma releaseUpdate_idem : idempotent releaseUpdate.
Proof. intros d. reflexivity. Qed.

Create HintDb seats.

#[local] Hint Resolve lockUpdate_key bookUpdate_key releaseUpdate_key
  lockUpdate_idem bookUpdate_idem releaseUpdate_idem : seats.

Lemma seatAt_In e sn coll d :
  seatAt e sn coll = Some d -> In d coll /\ keyOf d = (e, sn).
Proof.
  intros H. apply findOne_Some in H. now rewrite seatKey_spec in H.
Qed.

(** Under the index a key has one document. *)
Lemma unique_index_one coll a b :
  unique_index coll -> In a coll -> In b coll -> keyOf a = keyOf b -> a = b.
Proof.
  unfold unique_index. induction coll as [|x rest IH]; simpl; [intros _ []|].
  intros ND Ha Hb E. inversion ND as [|? ? Hnot ND']; subst.
  destruct Ha as [->|Ha], Hb as [->|Hb]; auto.
  - exfalso. apply Hnot. rewrite E. now apply in_map.
  - exfalso. apply Hnot. rewrite <- E. now apply in_map.
Qed.

Lemma setEach_keys e sns u coll :
  keeps_key u -> map keyOf (setEach e sns u coll) = map keyOf coll.
Proof.
  intros K. unfold setEach. rewrite map_map. apply map_ext.
  intros d. destruct (inBatch e sns d); [apply K|reflexivity].
Qed.

Lemma setEach_unique e sns u coll :
  keeps_key u -> unique_index coll -> unique_index (setEach e sns u coll).
Proof. intros K U. unfold unique_index. now rewrite setEach_keys. Qed.

Lemma setEach_nil e u coll : setEach e [] u coll = coll.
Proof.
  unfold setEach, inBatch. simpl. rewrite <- (map_id coll) at 2.
  apply map_ext. intros d. now rewrite andb_false_r.
Qed.

(** Updating the batch seat by seat is updating the batch. *)
Lemma setEach_cons e sn sns u coll :
  keeps_key u -> idempotent u ->
  setEach e sns u (setEach e [sn] u coll) = setEach e (sn :: sns) u coll.
Proof.
  intros K I. unfold setEach. rewrite map_map. apply map_ext. intros d.
  rewrite inBatch_one, (inBatch_cons e sn sns).
  destruct (seatKey e sn d); simpl.
  - rewrite (inBatch_keyOf e sns (u d) d (K d)), I.
    now destruct (inBatch e sns d).
  - reflexivity.
Qed.

Lemma setEach_app e pre post u coll :
  keeps_key u -> idempotent u ->
  setEach e post u (setEach e pre u coll) = setEach e (pre ++ post) u coll.
Proof.
  intros K I. revert coll. induction pre as [|p pre IH]; intros coll; simpl.
  - now rewrite setEach_nil.
  - rewrite <- (setEach_cons e p (pre ++ post)), <- (setEach_cons e p pre) by assumption.
    apply IH.
Qed.

Lemma seatAt_setEach e s e' sns u coll :
  keeps_key u ->
  seatAt e s (setEach e' sns u coll) =
  option_map (fun d => if inBatch e' sns d then u d else d) (seatAt e s coll).
Proof.
  intros K. unfold seatAt, setEach.
  induction coll as [|x rest IH]; simpl; [reflexivity|].
  assert (E : seatKey e s (if inBatch e' sns x then u x else x) = seatKey e s x).
  { destruct (inBatch e' sns x); [apply seatKey_keyOf, K|reflexivity]. }
  rewrite E. destruct (seatKey e s x); [reflexivity|apply IH].
Qed.

Lemma seatAt_setEach_in e s sns u coll d :
  keeps_key u -> In s sns -> seatAt e s coll = Some d ->
  seatAt e s (setEach e sns u coll) = Some (u d).
Proof.
  intros K Hin H. rewrite seatAt_setEach, H by assumption. simpl.
  destruct (seatAt_In _ _ _ _ H) as [_ Hk]. injection Hk as He Hs.
  assert (B : inBatch e sns d = true) by (apply inBatch_spec; subst; auto).
  now rewrite B.
Qed.

Lemma seatAt_setEach_out e s sns u coll :
  keeps_key u -> ~ In s sns ->
  seatAt e s (setEach e sns u coll) = seatAt e s coll.
Proof.
  intros K Hout. rewrite seatAt_setEach by assumption.
  destruct (seatAt e s coll) as [d|] eqn:H; [|reflexivity]. simpl.
  destruct (seatAt_In _ _ _ _ H) as [_ Hk]. injection Hk as He Hs.
  destruct (inBatch e sns d) eqn:B; [|reflexivity].
  apply inBatch_spec in B. destruct B as [_ B]. subst. contradiction.
Qed.

(** A filter that pins the key down sees the seat of that key or nothing. *)
Lemma findOne_keyed e sn (c f : Seat -> bool) coll :
  unique_index coll ->
  (forall x, f x = seatKey e sn x && c x) ->
  findOne f coll =
  match seatAt e sn coll with
  | Some d => if c d then Some d else None
  | None => None
  end.
Proof.
  intros U F. destruct (seatAt e sn coll) as [d|] eqn:H.
  - destruct (seatAt_In _ _ _ _ H) as [Hin Hk].
    destruct (c d) eqn:C.
    + unfold seatAt in H. clear Hin Hk U.
      induction coll as [|x rest IH]; simpl in *; [discriminate|].
      rewrite F. destruct (seatKey e sn x); simpl.
      * injection H as ->. now rewrite C.
      * auto.
    + apply findOne_None. intros x Hx. rewrite F.
      destruct (seatKey e sn x) eqn:Kx; [|reflexivity]. simpl.
      apply seatKey_spec in Kx.
      rewrite (unique_index_one coll x d U Hx Hin) by congruence. exact C.
  - apply findOne_None. intros x Hx. rewrite F.
    unfold seatAt in H. rewrite findOne_None in H. now rewrite (H x Hx).
Qed.

Lemma updateOne_keyed e sn (c f : Seat -> bool) u coll d :
  unique_index coll ->
  (forall x, f x = seatKey e sn x && c x) ->
  seatAt e sn coll = Some d -> c d = true ->
  updateOne f u coll = setEach e [sn] u coll.
Proof.
  intros U F H C. unfold setEach.
  induction coll as [|x rest IH]; simpl in *; [reflexivity|].
  rewrite F, inBatch_one. unfold seatAt in H. simpl in H.
  inversion U as [|? ? Hnot U']; subst.
  destruct (seatKey e sn x) eqn:Kx; simpl.
  - injection H as ->. rewrite C. f_equal.
    rewrite <- (map_id rest) at 1. apply map_ext_in. intros y Hy.
    rewrite inBatch_one. destruct (seatKey e sn y) eqn:Ky; [|reflexivity].
    exfalso. apply Hnot. apply seatKey_spec in Kx, Ky.
    rewrite Kx, <- Ky. now apply in_map.
  - f_equal. now apply IH.
Qed.

(** ** The answers name their seat *)

Lemma append_length a b :
  String.length (String.append a b) = (String.length a + String.length b)%nat.
Proof. induction a as [|c a IH]; simpl; [reflexivity|now rewrite IH]. Qed.

Lemma append_cancel_r s a b :
  String.append a s = String.append b s -> a = b.
Proof.
  revert b. induction a as [|c a IH]; intros [|c' b] E; simpl in E.
  - reflexivity.
  - apply (f_equal String.length) in E. simpl in E.
    rewrite append_length in E. lia.
  - apply (f_equal String.length) in E. simpl in E.
    rewrite append_length in E. lia.
  - injection E as -> E. f_equal. now apply IH.
Qed.

Lemma seat_message_inj (tail a b : string) :
  "Seat " +++ a +++ tail = "Seat " +++ b +++ tail -> a = b.
Proof.
  unfold cat. simpl. intros [= E]. now apply append_cancel_r in E.
Qed.

Lemma conflictUnavailable_inj a b :
  conflictUnavailable a = conflictUnavailable b -> a = b.
Proof.
  intros E. apply (f_equal body) in E. simpl in E.
  injection E as E. exact (append_cancel_r _ _ _ E).
Qed.

(** ** Filters, read as properties of the seat *)

Lemma Status_eqb_eq a b : Status_eqb a b = true <-> a = b.
Proof. destruct a, b; simpl; split; congruence. Qed.

Lemma lockFilter_split e sn now x :
  lockFilter e sn now x = seatKey e sn x && lockCond now x.
Proof. reflexivity. Qed.

Lemma confirmFilter_split e sn o now x :
  confirmFilter e sn o now x = seatKey e sn x && confirmCond o now x.
Proof. unfold confirmFilter, confirmCond. now rewrite !andb_assoc. Qed.

Lemma expiredFilter_stale now d : expiredFilter now d = true <-> stale now d.
Proof.
  unfold expiredFilter, expires_lte, stale.
  rewrite andb_true_iff, Status_eqb_eq. split.
  - intros [S E]. split; [assumption|].
    destruct (lockExpiresAt d) as [t|]; [|discriminate].
    exists t. split; [reflexivity|]. now apply Z.leb_le.
  - intros [S [t [-> Ht]]]. split; [assumption|]. now apply Z.leb_le.
Qed.

Lemma lockCond_acquirable now d : lockCond now d = true <-> acquirable now d.
Proof.
  unfold lockCond, acquirable. rewrite orb_true_iff, Status_eqb_eq.
  change (Status_eqb (status d) locked && expires_lte now d)
    with (expiredFilter now d).
  now rewrite expiredFilter_stale.
Qed.

Lemma unavailable_not_acquirable now d : unavailable now d -> ~ acquirable now d.
Proof.
  intros [B|[L [t [Et Ht]]]] [A|[L' [t' [Et' Ht']]]]; try congruence.
  rewrite Et in Et'. injection Et' as <-. lia.
Qed.

Lemma unavailable_lockCond now d : unavailable now d -> lockCond now d = false.
Proof.
  intros H. destruct (lockCond now d) eqn:C; [|reflexivity].
  apply lockCond_acquirable in C. now apply unavailable_not_acquirable in H.
Qed.

Lemma optString_eqb_eq a b : optString_eqb a b = true <-> a = Some b.
Proof.
  destruct a as [x|]; simpl; [|split; discriminate].
  rewrite String.eqb_eq. split; congruence.
Qed.

Lemma confirmCond_confirmable o now d :
  confirmCond o now d = true <-> confirmable o now d.
Proof.
  unfold confirmCond, confirmable, heldBy, expires_gt.
  rewrite !andb_true_iff, Status_eqb_eq, optString_eqb_eq. split.
  - intros [[S O] E]. split; [auto|].
    destruct (lockExpiresAt d) as [t|]; [|discriminate].
    exists t. split; [reflexivity|]. now apply Z.ltb_lt.
  - intros [[S O] [t [Et Ht]]]. rewrite Et. repeat split; auto.
    now apply Z.ltb_lt.
Qed.

Lemma stale_not_confirmable o now d : stale now d -> confirmCond o now d = false.
Proof.
  intros [_ [t [Et Ht]]]. destruct (confirmCond o now d) eqn:C; [|reflexivity].
  apply confirmCond_confirmable in C. destruct C as [_ [t' [Et' Ht']]].
  rewrite Et in Et'. injection Et' as <-. lia.
Qed.

(** ** POST /events/:eventId/lock *)

(** The expiry, as the Date constructor makes it: a minute ahead; a ttl
    under a millisecond dropped; fractions cut towards zero; out of the
    range of Date, and not a number, no Date at all. *)
Example lockExpiry_samples :
  lockExpiry 1700000000000 60%float = Some 1700000060000
  /\ lockExpiry 1700000000000 0.00048828125%float = Some 1700000000000
  /\ lockExpiry 1700000000000 1.5%float = Some 1700000001500
  /\ lockExpiry 1700000000000 (-0.00048828125)%float = Some 1699999999999
  /\ lockExpiry 1700000000000 9e12%float = None
  /\ lockExpiry 1700000000000 (-8e12)%float = Some (-7998300000000000)
  /\ lockExpiry 1700000000000 (-9e12)%float = None
  /\ lockExpiry 1700000000000 nan = None
  /\ lockExpiry 1700000000000 infinity = None.
Proof. repeat split. Qed.

Lemma lockUpdate_lockedSeat e sn o x d :
  keyOf d = (e, sn) -> lockUpdate o x d = lockedSeat e sn o x.
Proof. unfold keyOf, lockUpdate, lockedSeat. now intros [= -> ->]. Qed.

(** One turn of the loop, read off the seat the key names. *)
Lemma lock_step e o now x sn tx :
  unique_index tx ->
  findOneAndUpdate (lockFilter e sn now) (lockUpdate o x) tx =
  match seatAt e sn tx with
  | Some d =>
      if lockCond now d
      then Some (lockedSeat e sn o x, setEach e [sn] (lockUpdate o x) tx)
      else None
  | None => None
  end.
Proof.
  intros U. unfold findOneAndUpdate.
  rewrite (findOne_keyed e sn (lockCond now)) by (auto using lockFilter_split).
  destruct (seatAt e sn tx) as [d|] eqn:H; [|reflexivity].
  destruct (lockCond now d) eqn:C; [|reflexivity].
  rewrite (updateOne_keyed e sn (lockCond now) _ _ tx d)
    by (auto using lockFilter_split).
  destruct (seatAt_In _ _ _ _ H) as [_ K].
  now rewrite (lockUpdate_lockedSeat e sn o x d K).
Qed.

Lemma lockLoop_app e o now x pre post acc tx :
  lockLoop e o now x (pre ++ post) acc tx =
  match lockLoop e o now x pre acc tx with
  | inl r => inl r
  | inr (acc', tx') => lockLoop e o now x post acc' tx'
  end.
Proof.
  revert acc tx. induction pre as [|p pre IH]; intros acc tx; simpl.
  - reflexivity.
  - destruct (findOneAndUpdate _ _ tx) as [[seat tx']|]; [apply IH|reflexivity].
Qed.

Lemma eachSeat_tail (P : Seat -> Prop) e sn sns u coll :
  keeps_key u -> ~ In sn sns -> eachSeat P e (sn :: sns) coll ->
  eachSeat P e sns (setEach e [sn] u coll).
Proof.
  intros K Hout H p Hp.
  destruct (H p (or_intror Hp)) as [d [Hd Pd]]. exists d. split; [|assumption].
  rewrite seatAt_setEach_out; auto.
  intros [->|[]]. contradiction.
Qed.

(** A batch of distinct acquirable seats is locked whole. *)
Lemma lockLoop_ok e o now x sns acc tx :
  unique_index tx -> NoDup sns -> eachSeat (acquirable now) e sns tx ->
  lockLoop e o now x sns acc tx =
  inr (acc ++ map (fun sn => lockedSeat e sn o x) sns,
       setEach e sns (lockUpdate o x) tx).
Proof.
  revert acc tx. induction sns as [|sn sns IH]; intros acc tx U ND A; simpl.
  - now rewrite app_nil_r, setEach_nil.
  - rewrite lock_step by assumption.
    destruct (A sn (or_introl eq_refl)) as [d [Hd Ad]]. rewrite Hd.
    apply lockCond_acquirable in Ad. rewrite Ad.
    inversion ND as [|? ? Hout ND']; subst.
    rewrite IH.
    + rewrite <- app_assoc. simpl.
      now rewrite setEach_cons by auto with seats.
    + apply setEach_unique; auto with seats.
    + assumption.
    + apply eachSeat_tail; auto with seats.
Qed.

(** The turn of a seat that is missing or fails the condition. *)
Lemma lockLoop_conflict_here e o now x s post acc tx :
  unique_index tx ->
  (forall d, seatAt e s tx = Some d -> lockCond now d = false) ->
  lockLoop e o now x (s :: post) acc tx = inl (conflictUnavailable s).
Proof.
  intros U H. simpl. rewrite lock_step by assumption.
  destruct (seatAt e s tx) as [d|]; [|reflexivity].
  now rewrite (H d eq_refl).
Qed.

(** An unavailable seat anywhere in the batch stops the loop: some seat [f]
    of the batch fails the condition after the seats before it were locked
    in the transaction. *)
Lemma lockLoop_blocked e o now x sns acc tx s d :
  unique_index tx -> In s sns -> seatAt e s tx = Some d ->
  lockCond now d = false ->
  exists pre f post l tx',
    sns = pre ++ f :: post
    /\ lockLoop e o now x pre acc tx = inr (l, tx')
    /\ (forall d', seatAt e f tx' = Some d' -> lockCond now d' = false)
    /\ lockLoop e o now x sns acc tx = inl (conflictUnavailable f).
Proof.
  revert acc tx. induction sns as [|a sns IH]; intros acc tx U Hin Hs C.
  - destruct Hin.
  - destruct (string_dec a s) as [->|Ne].
    + exists [], s, sns, acc, tx. repeat split.
      * rewrite Hs. now intros ? [= <-].
      * apply lockLoop_conflict_here; [assumption|]. congruence.
    + destruct Hin as [E|Hin]; [contradiction|].
      cbn [lockLoop]. rewrite lock_step by assumption.
      destruct (seatAt e a tx) as [da|] eqn:Ha;
        [destruct (lockCond now da) eqn:Ca|].
      * destruct (IH (acc ++ [lockedSeat e a o x])
                     (setEach e [a] (lockUpdate o x) tx))
          as (pre & f & post & l & tx' & -> & Hpre & Hf & Ef).
        -- apply setEach_unique; auto with seats.
        -- assumption.
        -- rewrite seatAt_setEach_out; auto with seats.
           intros [E|[]]. contradiction.
        -- assumption.
        -- exists (a :: pre), f, post, l, tx'. repeat split; auto.
           cbn [lockLoop]. rewrite lock_step, Ha, Ca by assumption.
           exact Hpre.
      * exists [], a, sns, acc, tx. repeat split.
        rewrite Ha. now intros ? [= <-].
      * exists [], a, sns, acc, tx. repeat split.
        rewrite Ha. discriminate.
Qed.

Lemma lock_unfold e sns o ttl now x w :
  sns <> [] -> truthy o = true -> lockExpiry now ttl = Some x ->
  lock e sns o ttl now w =
  match lockLoop e o now x sns [] (seats w) with
  | inl r => (r, w)
  | inr (lockedSeats, tx) =>
      (mkResponse 200 (LockedSeatsBody lockedSeats), withSeats w tx)
  end.
Proof.
  intros Hne Ho Hx. unfold lock. destruct sns; [contradiction|]. simpl.
  now rewrite Ho, Hx.
Qed.

(** An expiry that is no Date: 500, and the store as it was. *)
Lemma lock_invalid e sns o ttl now w :
  sns <> [] -> truthy o = true -> lockExpiry now ttl = None ->
  lock e sns o ttl now w = (castError, w).
Proof.
  intros Hne Ho Hx. unfold lock. destruct sns; [contradiction|]. simpl.
  now rewrite Ho, Hx.
Qed.

Lemma lock_blocked w e sns o ttl now x s d :
  unique_index (seats w) -> truthy o = true -> lockExpiry now ttl = Some x ->
  In s sns -> seatAt e s (seats w) = Some d -> lockCond now d = false ->
  exists pre f post l tx,
    sns = pre ++ f :: post
    /\ lockLoop e o now x pre [] (seats w) = inr (l, tx)
    /\ (forall d', seatAt e f tx = Some d' -> ~ acquirable now d')
    /\ lock e sns o ttl now w = (conflictUnavailable f, w).
Proof.
  intros U Ho Hx Hin Hs C.
  destruct (lockLoop_blocked e o now x sns [] (seats w) s d
              U Hin Hs C) as (pre & f & post & l & tx & E & Hpre & Hf & Ef).
  exists pre, f, post, l, tx. repeat split; auto.
  - intros d' Hd' A. apply lockCond_acquirable in A.
    rewrite (Hf d' Hd') in A. discriminate.
  - rewrite (lock_unfold e sns o ttl now x);
      [now rewrite Ef|intros ->; destruct Hin|assumption..].
Qed.

Lemma lock_blocked_at w e pre s post o ttl now x :
  unique_index (seats w) -> truthy o = true -> lockExpiry now ttl = Some x ->
  NoDup pre -> eachSeat (acquirable now) e pre (seats w) ->
  (forall d, seatAt e s (setEach e pre (lockUpdate o x) (seats w))
             = Some d -> lockCond now d = false) ->
  lock e (pre ++ s :: post) o ttl now w = (conflictUnavailable s, w).
Proof.
  intros U Ho Hx ND A C.
  rewrite (lock_unfold e _ o ttl now x); [|now destruct pre|assumption..].
  rewrite lockLoop_app, (lockLoop_ok e o now _ pre [] (seats w) U ND A).
  rewrite lockLoop_conflict_here; auto.
  apply setEach_unique; auto with seats.
Qed.

Lemma eachSeat_weaken (P Q : Seat -> Prop) e sns sns' coll :
  (forall d, P d -> Q d) -> (forall sn, In sn sns' -> In sn sns) ->
  eachSeat P e sns coll -> eachSeat Q e sns' coll.
Proof.
  intros PQ Sub H sn Hin. destruct (H sn (Sub sn Hin)) as [d [Hd Pd]].
  exists d. auto.
Qed.

(** A list with a repeated element, cut at the first repetition. *)
Lemma first_repeat (l : list string) :
  NoDup l \/
  exists pre s post, l = pre ++ s :: post /\ NoDup pre /\ In s pre.
Proof.
  induction l as [|x l IH] using rev_ind; [left; constructor|].
  destruct IH as [ND|[pre [s [post [-> [ND Hin]]]]]].
  - destruct (in_dec string_dec x l) as [Hx|Hx].
    + right. exists l, x, []. auto.
    + left. apply NoDup_rev in ND. rewrite <- (rev_involutive (l ++ [x])).
      apply NoDup_rev. rewrite rev_app_distr. simpl. constructor; [|assumption].
      now rewrite <- in_rev.
  - right. exists pre, s, (post ++ [x]). rewrite <- app_assoc. auto.
Qed.

(** Concrete side conditions: distinct keys, membership, seats of a store. *)
Ltac distinct :=
  unfold unique_index; simpl;
  repeat (constructor; [simpl; intuition discriminate|]); constructor.

Ltac each_seat :=
  let sn := fresh "sn" in
  let H := fresh "H" in
  intros sn H; simpl in H;
  repeat (destruct H as [<-|H]; [eexists; split; [reflexivity|]|]);
  [..|destruct H].

(* ------------------------------------------------------------------ *)
(** ** Acquire: all or nothing *)

(** C1 (amended). An acquire whose expiry is a valid Date and whose batch
    holds a seat that is booked, or locked with an expiry still ahead of
    [now], is answered 409 with the message naming the seat of the batch
    that failed the condition, and the store is the one the request found:
    the locks that the loop had taken in the transaction on the seats before
    it are not committed.  The seat named is the unavailable seat itself
    whenever the seats before it in the batch are distinct and acquirable.
    When the expiry is an Invalid Date the answer is 500, and the store is
    likewise the one the request found. *)
Theorem acquire_conflict_rolls_back w e seatNumbers ownerId ttl now s d :
  unique_index (seats w) -> truthy ownerId = true ->
  In s seatNumbers -> seatAt e s (seats w) = Some d -> unavailable now d ->
  (forall expiresAt, lockExpiry now ttl = Some expiresAt ->
     (exists pre f post lockedSeats tx,
        seatNumbers = pre ++ f :: post
        /\ lockLoop e ownerId now expiresAt pre [] (seats w)
           = inr (lockedSeats, tx)
        /\ (forall d', seatAt e f tx = Some d' -> ~ acquirable now d')
        /\ lock e seatNumbers ownerId ttl now w = (conflictUnavailable f, w))
     /\ (forall pre post, seatNumbers = pre ++ s :: post -> NoDup pre ->
           eachSeat (acquirable now) e pre (seats w) ->
           lock e seatNumbers ownerId ttl now w = (conflictUnavailable s, w)))
  /\ (lockExpiry now ttl = None ->
      lock e seatNumbers ownerId ttl now w = (castError, w)).
Proof.
  intros U Ho Hin Hs Un. split.
  - intros x Hx. split.
    + apply (lock_blocked w e seatNumbers ownerId ttl now x s d); auto.
      now apply unavailable_lockCond.
    + intros pre post -> ND A.
      apply (lock_blocked_at w e pre s post ownerId ttl now x); auto.
      assert (Hout : ~ In s pre).
      { intros Hp. destruct (A s Hp) as [d' [Hd' Ad']].
        rewrite Hs in Hd'. injection Hd' as <-.
        now apply unavailable_not_acquirable in Un. }
      intros d'. rewrite seatAt_setEach_out, Hs by auto with seats.
      intros [= <-]. now apply unavailable_lockCond.
  - intros Hx. apply lock_invalid; auto. intros ->. destruct Hin.
Qed.

Lemma acquire_conflict_rolls_back_witness :
  lock 0%N ["A"; "B"; "C"] "u1" 60%float 100 sampleWorld
  = (conflictUnavailable "C", sampleWorld).
Proof.
  refine (proj2 (proj1 (acquire_conflict_rolls_back sampleWorld 0%N
                          ["A"; "B"; "C"] "u1" 60%float 100 "C" seatC_held
                          _ eq_refl _ eq_refl _) 60100 eq_refl)
                ["A"; "B"] [] eq_refl _ _).
  - distinct.
  - simpl. auto.
  - right. split; [reflexivity|]. exists 500. split; [reflexivity|lia].
  - distinct.
  - each_seat.
    + now left.
    + right. split; [reflexivity|]. exists 50. split; [reflexivity|lia].
Defined.

(** C1, as stated, fails: with [ttlSeconds = 9e12] the expiry lies beyond
    the range of Date, and the batch that holds the validly locked seat C is
    answered 500, not a 409 naming a seat. *)
Lemma acquire_conflict_invalid_date :
  unique_index (seats sampleWorld)
  /\ seatAt 0%N "C" (seats sampleWorld) = Some seatC_held
  /\ unavailable 100 seatC_held
  /\ lock 0%N ["A"; "B"; "C"] "u1" 9e12%float 100 sampleWorld
     = (castError, sampleWorld)
  /\ forall f, lock 0%N ["A"; "B"; "C"] "u1" 9e12%float 100 sampleWorld
               <> (conflictUnavailable f, sampleWorld).
Proof.
  split; [distinct|]. split; [reflexivity|]. split.
  - right. split; [reflexivity|]. exists 500. split; [reflexivity|lia].
  - split; [reflexivity|]. intros f H. discriminate H.
Qed.

(** C9 (amended). A seat locked by the requesting owner, with its expiry
    still ahead, cannot be acquired again by that owner: when the new expiry
    is a valid Date the request is answered 409, when it is an Invalid Date
    500, and the store is unchanged either way.  The filter does not read
    [lockOwner]. *)
Theorem acquire_not_reentrant w e seatNumbers ownerId ttl now s d t :
  unique_index (seats w) -> truthy ownerId = true ->
  In s seatNumbers -> seatAt e s (seats w) = Some d ->
  status d = locked -> lockOwner d = Some ownerId ->
  lockExpiresAt d = Some t -> now < t ->
  (forall expiresAt, lockExpiry now ttl = Some expiresAt ->
     (exists f, In f seatNumbers /\
        lock e seatNumbers ownerId ttl now w = (conflictUnavailable f, w))
     /\ lock e [s] ownerId ttl now w = (conflictUnavailable s, w))
  /\ (lockExpiry now ttl = None ->
      lock e seatNumbers ownerId ttl now w = (castError, w))
  /\ (forall o', lockFilter e s now
        (mkSeat (eventId d) (seatNumber d) (status d) o'
                (lockExpiresAt d) (bookingId d))
      = lockFilter e s now d).
Proof.
  intros U Ho Hin Hs L O E Ht.
  assert (C : lockCond now d = false).
  { apply unavailable_lockCond. right. split; [assumption|]. now exists t. }
  split; [|split].
  - intros x Hx. split.
    + destruct (lock_blocked w e seatNumbers ownerId ttl now x s d
                  U Ho Hx Hin Hs C)
        as (pre & f & post & _ & _ & -> & _ & _ & Ef).
      exists f. split; [|exact Ef]. apply in_or_app. right. now left.
    + apply (lock_blocked_at w e [] s [] ownerId ttl now x); auto;
        [constructor|intros ? []|].
      rewrite setEach_nil, Hs. now intros ? [= <-].
  - intros Hx. apply lock_invalid; auto. intros ->. destruct Hin.
  - reflexivity.
Qed.

Lemma acquire_not_reentrant_witness :
  lock 0%N ["C"] "u2" 60%float 100 sampleWorld
  = (conflictUnavailable "C", sampleWorld).
Proof.
  refine (proj2 (proj1 (acquire_not_reentrant sampleWorld 0%N ["A"; "C"] "u2"
                          60%float 100 "C" seatC_held 500 _ eq_refl _ eq_refl
                          eq_refl eq_refl eq_refl _) 60100 eq_refl)).
  - distinct.
  - simpl. auto.
  - lia.
Defined.

(** C9, as stated, fails: seat C is locked by u2 until 500; at 100, u2's
    acquire of it with [ttlSeconds = 9e12] is answered 500, not 409. *)
Lemma acquire_reentrant_invalid_date :
  seatAt 0%N "C" (seats sampleWorld) = Some seatC_held
  /\ status seatC_held = locked /\ lockOwner seatC_held = Some "u2"
  /\ lockExpiresAt seatC_held = Some 500 /\ 100 < 500
  /\ lock 0%N ["C"] "u2" 9e12%float 100 sampleWorld = (castError, sampleWorld)
  /\ lock 0%N ["C"] "u2" 9e12%float 100 sampleWorld
     <> (conflictUnavailable "C", sampleWorld).
Proof.
  repeat split; try reflexivity. intros H. discriminate H.
Qed.

(** C8 (amended). When the expiry that the acquire stamps, the Date made of
    [now + ttlSeconds * 1000], is valid and strictly after [now], a batch
    over available seats that repeats a seat number is answered 409 naming
    the seat at its first repetition, and the store is unchanged. *)
Theorem acquire_duplicate_conflicts w e seatNumbers ownerId ttl now expiresAt :
  unique_index (seats w) -> truthy ownerId = true ->
  lockExpiry now ttl = Some expiresAt -> now < expiresAt ->
  eachSeat (fun d => status d = available) e seatNumbers (seats w) ->
  ~ NoDup seatNumbers ->
  exists pre s post,
    seatNumbers = pre ++ s :: post /\ NoDup pre /\ In s pre /\
    lock e seatNumbers ownerId ttl now w = (conflictUnavailable s, w).
Proof.
  intros U Ho Hx Hlt A Dup.
  destruct (first_repeat seatNumbers) as [ND|[pre [s [post [-> [ND Hin]]]]]];
    [contradiction|].
  exists pre, s, post. repeat split; auto.
  apply (lock_blocked_at w e pre s post ownerId ttl now expiresAt); auto.
  - apply (eachSeat_weaken _ _ _ _ _ _ (fun d H => or_introl H)
             (fun sn H => in_or_app _ _ sn (or_introl H)) A).
  - destruct (A s (in_or_app _ _ s (or_introl Hin))) as [d [Hd _]].
    rewrite (seatAt_setEach_in e s pre _ _ d) by auto with seats.
    intros ? [= <-]. unfold lockCond, expires_lte. simpl.
    apply Z.leb_gt. lia.
Qed.

Lemma acquire_duplicate_conflicts_witness :
  exists pre s post,
    ["A"; "B"; "A"] = pre ++ s :: post /\ NoDup pre /\ In s pre /\
    lock 0%N ["A"; "B"; "A"]%string "u1" 60%float 100
         (withSeats sampleWorld [seatA; newSeat 0%N "B"])
    = (conflictUnavailable s, withSeats sampleWorld [seatA; newSeat 0%N "B"]).
Proof.
  apply (acquire_duplicate_conflicts
           (withSeats sampleWorld [seatA; newSeat 0%N "B"])
           0%N ["A"; "B"; "A"] "u1" 60%float 100 60100).
  - distinct.
  - reflexivity.
  - reflexivity.
  - lia.
  - each_seat; reflexivity.
  - intros ND. inversion ND as [|? ? Hout _]. apply Hout. simpl. auto.
Defined.

(** C8, as stated, fails, and a positive [ttlSeconds] does not save it.
    With [ttlSeconds = 0], and with the positive [ttlSeconds = 2^-11] (less
    than a millisecond, which the Date drops), the first occurrence stamps
    the expiry [now], the second occurrence's [$lte: now] matches it, and the
    request is answered 200 with the seat locked. *)
Lemma acquire_duplicate_zero_ttl :
  let w := mkWorld [seatA] [] [mkEvent 0%N "E" ""] 1%N in
  unique_index (seats w) /\
  eachSeat (fun d => status d = available) 0%N ["A"; "A"] (seats w) /\
  lock 0%N ["A"; "A"] "u1" 0%float 100 w
  = (mkResponse 200 (LockedSeatsBody [lockedSeat 0%N "A" "u1" 100;
                                      lockedSeat 0%N "A" "u1" 100]),
     withSeats w [lockedSeat 0%N "A" "u1" 100]) /\
  lock 0%N ["A"; "A"] "u1" 0%float 100 w <> (conflictUnavailable "A", w) /\
  PrimFloat.ltb 0%float 0.00048828125%float = true /\
  lock 0%N ["A"; "A"] "u1" 0.00048828125%float 100 w
  = (mkResponse 200 (LockedSeatsBody [lockedSeat 0%N "A" "u1" 100;
                                      lockedSeat 0%N "A" "u1" 100]),
     withSeats w [lockedSeat 0%N "A" "u1" 100]).
Proof.
  cbv zeta. split; [distinct|]. split; [each_seat; reflexivity|].
  split; [reflexivity|]. split; [intros H; discriminate H|].
  split; reflexivity.
Qed.

(* ------------------------------------------------------------------ *)
(** ** Confirm *)

Lemma updateOne_key e sn u coll :
  unique_index coll ->
  updateOne (seatKey e sn) u coll = setEach e [sn] u coll.
Proof.
  intros U. destruct (seatAt e sn coll) as [d|] eqn:H.
  - apply (updateOne_keyed e sn (fun _ => true) _ u coll d); auto.
    intros x. now rewrite andb_true_r.
  - unfold seatAt in H. rewrite (updateOne_no_match _ _ _ H).
    unfold setEach. rewrite <- (map_id coll) at 1. apply map_ext_in.
    intros x Hx. rewrite inBatch_one.
    rewrite findOne_None in H. now rewrite (H x Hx).
Qed.

Lemma bookLoop_setEach e bid sns tx :
  unique_index tx -> bookLoop e bid sns tx = setEach e sns (bookUpdate bid) tx.
Proof.
  revert tx. induction sns as [|sn sns IH]; intros tx U; simpl.
  - now rewrite setEach_nil.
  - rewrite updateOne_key by assumption.
    rewrite IH by (apply setEach_unique; auto with seats).
    apply setEach_cons; auto with seats.
Qed.

Lemma confirm_step e o now sn tx :
  unique_index tx ->
  findOne (confirmFilter e sn o now) tx =
  match seatAt e sn tx with
  | Some d => if confirmCond o now d then Some d else None
  | None => None
  end.
Proof.
  intros U. apply findOne_keyed; auto using confirmFilter_split.
Qed.

Lemma confirmCheck_app e o now pre post acc tx :
  confirmCheck e o now (pre ++ post) acc tx =
  match confirmCheck e o now pre acc tx with
  | inl r => inl r
  | inr acc' => confirmCheck e o now post acc' tx
  end.
Proof.
  revert acc. induction pre as [|p pre IH]; intros acc; simpl; [reflexivity|].
  destruct (findOne _ tx); [apply IH|reflexivity].
Qed.

Lemma confirmCheck_ok e o now sns acc tx :
  unique_index tx -> eachSeat (confirmable o now) e sns tx ->
  exists found, confirmCheck e o now sns acc tx = inr found.
Proof.
  intros U. revert acc. induction sns as [|sn sns IH]; intros acc A; simpl.
  - now exists acc.
  - rewrite confirm_step by assumption.
    destruct (A sn (or_introl eq_refl)) as [d [Hd Cd]]. rewrite Hd.
    apply confirmCond_confirmable in Cd. rewrite Cd.
    apply IH. intros p Hp. apply A. now right.
Qed.

Lemma confirmCheck_conflict_here e o now s post acc tx :
  unique_index tx ->
  (forall d, seatAt e s tx = Some d -> ~ confirmable o now d) ->
  confirmCheck e o now (s :: post) acc tx = inl (conflictNotConfirmable s).
Proof.
  intros U H. simpl. rewrite confirm_step by assumption.
  destruct (seatAt e s tx) as [d|]; [|reflexivity].
  destruct (confirmCond o now d) eqn:C; [|reflexivity].
  apply confirmCond_confirmable in C. now destruct (H d eq_refl).
Qed.

(** The check stops at the first seat of the batch that fails it. *)
Lemma confirmCheck_blocked e o now sns acc tx s :
  unique_index tx -> In s sns ->
  (forall d, seatAt e s tx = Some d -> ~ confirmable o now d) ->
  exists f, In f sns /\
    (forall d, seatAt e f tx = Some d -> ~ confirmable o now d) /\
    confirmCheck e o now sns acc tx = inl (conflictNotConfirmable f).
Proof.
  intros U. revert acc. induction sns as [|a sns IH]; intros acc Hin Hs.
  - destruct Hin.
  - simpl. rewrite confirm_step by assumption.
    destruct (seatAt e a tx) as [da|] eqn:Ha;
      [destruct (confirmCond o now da) eqn:Ca|].
    + destruct Hin as [->|Hin].
      * apply confirmCond_confirmable in Ca. rewrite Ha in Hs.
        now destruct (Hs da eq_refl).
      * destruct (IH (acc ++ [da]) Hin Hs) as [f [Hf [Nf Ef]]].
        exists f. auto.
    + exists a. split; [now left|]. split; [|reflexivity].
      rewrite Ha. intros d [= <-] C. apply confirmCond_confirmable in C.
      congruence.
    + exists a. split; [now left|]. split; [|reflexivity].
      rewrite Ha. discriminate.
Qed.

Lemma confirm_unfold e sns o now stamp w :
  sns <> [] -> truthy o = true ->
  confirm e sns o now stamp w =
  match confirmCheck e o now sns [] (seats w) with
  | inl r => (r, w)
  | inr _ =>
      (mkResponse 201 (BookingBody (mkBooking (nextId w) e o sns stamp)),
       mkWorld (bookLoop e (nextId w) sns (seats w))
               (bookings w ++ [mkBooking (nextId w) e o sns stamp])
               (events w) (N.succ (nextId w)))
  end.
Proof.
  intros Hne Ho. unfold confirm. destruct sns; [contradiction|]. simpl.
  now rewrite Ho.
Qed.

Lemma confirm_blocked w e sns o now stamp s :
  unique_index (seats w) -> truthy o = true -> In s sns ->
  (forall d, seatAt e s (seats w) = Some d -> ~ confirmable o now d) ->
  exists f, In f sns /\
    (forall d, seatAt e f (seats w) = Some d -> ~ confirmable o now d) /\
    confirm e sns o now stamp w = (conflictNotConfirmable f, w).
Proof.
  intros U Ho Hin Hs.
  destruct (confirmCheck_blocked e o now sns [] (seats w) s U Hin Hs)
    as [f [Hf [Nf Ef]]].
  exists f. repeat split; auto.
  rewrite confirm_unfold; [now rewrite Ef|intros ->; destruct Hin|assumption].
Qed.

Lemma confirm_blocked_at w e pre s post o now stamp :
  unique_index (seats w) -> truthy o = true ->
  eachSeat (confirmable o now) e pre (seats w) ->
  (forall d, seatAt e s (seats w) = Some d -> ~ confirmable o now d) ->
  confirm e (pre ++ s :: post) o now stamp w = (conflictNotConfirmable s, w).
Proof.
  intros U Ho A Hs.
  rewrite confirm_unfold; [|now destruct pre|assumption].
  rewrite confirmCheck_app.
  destruct (confirmCheck_ok e o now pre [] (seats w) U A) as [found ->].
  now rewrite confirmCheck_conflict_here.
Qed.

Lemma bookUpdate_seat e sn bid d :
  keyOf d = (e, sn) -> bookUpdate bid d = mkSeat e sn booked None None (Some bid).
Proof. unfold keyOf, bookUpdate. now intros [= -> ->]. Qed.

(** C2. Confirm is atomic.  When every seat of the batch is locked by the
    owner with its expiry strictly after [now], one Booking listing the
    batch is created and exactly the seats of the batch become booked, with
    that Booking's id and with owner and expiry cleared.  When a seat of the
    batch is missing or fails the check, the answer is 409 naming a failing
    seat (the first one in batch order) and the store, bookings included, is
    unchanged. *)
Theorem confirm_atomic w e seatNumbers ownerId now stamp :
  unique_index (seats w) -> seatNumbers <> [] -> truthy ownerId = true ->
  (eachSeat (confirmable ownerId now) e seatNumbers (seats w) ->
   let booking := mkBooking (nextId w) e ownerId seatNumbers stamp in
   let w' := mkWorld (setEach e seatNumbers (bookUpdate (b_id booking)) (seats w))
                     (bookings w ++ [booking]) (events w) (N.succ (nextId w)) in
   confirm e seatNumbers ownerId now stamp w
   = (mkResponse 201 (BookingBody booking), w')
   /\ forall sn, In sn seatNumbers ->
        seatAt e sn (seats w')
        = Some (mkSeat e sn booked None None (Some (b_id booking))))
  /\ (forall s, In s seatNumbers ->
        (forall d, seatAt e s (seats w) = Some d -> ~ confirmable ownerId now d) ->
        exists f, In f seatNumbers /\
          (forall d, seatAt e f (seats w) = Some d -> ~ confirmable ownerId now d) /\
          confirm e seatNumbers ownerId now stamp w = (conflictNotConfirmable f, w))
  /\ (forall pre s post, seatNumbers = pre ++ s :: post ->
        eachSeat (confirmable ownerId now) e pre (seats w) ->
        (forall d, seatAt e s (seats w) = Some d -> ~ confirmable ownerId now d) ->
        confirm e seatNumbers ownerId now stamp w = (conflictNotConfirmable s, w)).
Proof.
  intros U Hne Ho. split; [|split].
  - intros A booking w'. split.
    + rewrite confirm_unfold by assumption.
      destruct (confirmCheck_ok e ownerId now seatNumbers [] (seats w) U A)
        as [found ->].
      now rewrite bookLoop_setEach.
    + intros sn Hin. destruct (A sn Hin) as [d [Hd _]]. subst w'. simpl.
      rewrite (seatAt_setEach_in e sn seatNumbers _ _ d) by auto with seats.
      destruct (seatAt_In _ _ _ _ Hd) as [_ K].
      now rewrite (bookUpdate_seat e sn _ d K).
  - intros s Hin Hs. now apply confirm_blocked with (s := s).
  - intros pre s post -> A Hs. now apply confirm_blocked_at.
Qed.

Lemma confirm_atomic_witness :
  confirm 0%N ["C"] "u2" 100 101 sampleWorld
  = (mkResponse 201 (BookingBody (mkBooking 8%N 0%N "u2" ["C"] 101)),
     mkWorld [seatA; seatB_stale; mkSeat 0%N "C" booked None None (Some 8%N);
              seatD_booked]
             [mkBooking 8%N 0%N "u2" ["C"] 101] [mkEvent 0%N "E" ""] 9%N)
  /\ confirm 0%N ["C"; "B"] "u2" 100 101 sampleWorld
     = (conflictNotConfirmable "B", sampleWorld).
Proof.
  split.
  - refine (proj1 (proj1 (confirm_atomic sampleWorld 0%N ["C"] "u2" 100 101
                            _ _ eq_refl) _)).
    + distinct.
    + discriminate.
    + each_seat. split; [split; reflexivity|].
      exists 500. split; [reflexivity|lia].
  - refine (proj2 (proj2 (confirm_atomic sampleWorld 0%N ["C"; "B"] "u2" 100 101
                            _ _ eq_refl)) ["C"] "B" [] eq_refl _ _).
    + distinct.
    + discriminate.
    + each_seat. split; [split; reflexivity|].
      exists 500. split; [reflexivity|lia].
    + intros d [= <-] [[_ O] _]. discriminate.
Defined.

(* ------------------------------------------------------------------ *)
(** ** Stale locks *)

Lemma setEach_absorb e sns u v coll :
  keeps_key v -> (forall d, u (v d) = u d) ->
  setEach e sns u (setEach e sns v coll) = setEach e sns u coll.
Proof.
  intros K A. unfold setEach. rewrite map_map. apply map_ext. intros d.
  destruct (inBatch e sns d) eqn:B; [|now rewrite B].
  now rewrite (inBatch_keyOf e sns (v d) d (K d)), B, A.
Qed.


Lemma lockLoop_inl_code e o now x sns acc tx r :
  lockLoop e o now x sns acc tx = inl r -> code r = 409.
Proof.
  revert acc tx. induction sns as [|a sns IH]; intros acc tx; simpl.
  - discriminate.
  - destruct (findOneAndUpdate _ _ tx) as [[seat tx']|]; [apply IH|].
    now intros [= <-].
Qed.




(* ------------------------------------------------------------------ *)
(** ** Release *)

Lemma heldBy_test o d :
  Status_eqb (status d) locked && optString_eqb (lockOwner d) o = true
  <-> heldBy o d.
Proof.
  unfold heldBy. now rewrite andb_true_iff, Status_eqb_eq, optString_eqb_eq.
Qed.

Lemma releaseUpdate_seat e sn d :
  keyOf d = (e, sn) ->
  releaseUpdate d = mkSeat e sn available None None (bookingId d).
Proof. unfold keyOf, releaseUpdate. now intros [= -> ->]. Qed.

(** One turn of the loop of lines 181-200. *)
Lemma cancel_step e o sn rest tx :
  unique_index tx ->
  cancelLoop e o (sn :: rest) tx =
  match seatAt e sn tx with
  | None => inl (notFound sn)
  | Some d =>
      if Status_eqb (status d) booked then inl (conflictBooked sn)
      else if Status_eqb (status d) locked && optString_eqb (lockOwner d) o
      then cancelLoop e o rest (setEach e [sn] releaseUpdate tx)
      else inl (conflictNotYours sn)
  end.
Proof. intros U. simpl. now rewrite updateOne_key. Qed.

Lemma cancelLoop_app e o pre post tx :
  cancelLoop e o (pre ++ post) tx =
  match cancelLoop e o pre tx with
  | inl r => inl r
  | inr tx' => cancelLoop e o post tx'
  end.
Proof.
  revert tx. induction pre as [|p pre IH]; intros tx; [reflexivity|].
  change ((p :: pre) ++ post) with (p :: (pre ++ post)).
  cbn [cancelLoop].
  destruct (findOne (seatKey e p) tx) as [d|]; [|reflexivity].
  destruct (Status_eqb (status d) booked); [reflexivity|].
  destruct (_ && _); [apply IH|reflexivity].
Qed.

Lemma cancelLoop_ok e o sns tx :
  unique_index tx -> NoDup sns -> eachSeat (heldBy o) e sns tx ->
  cancelLoop e o sns tx = inr (setEach e sns releaseUpdate tx).
Proof.
  revert tx. induction sns as [|sn sns IH]; intros tx U ND A.
  - simpl. now rewrite setEach_nil.
  - rewrite cancel_step by assumption.
    destruct (A sn (or_introl eq_refl)) as [d [Hd Hh]]. rewrite Hd.
    destruct Hh as [L O]. rewrite L, O. simpl. rewrite String.eqb_refl.
    inversion ND as [|? ? Hout ND']; subst.
    rewrite IH.
    + now rewrite setEach_cons by auto with seats.
    + apply setEach_unique; auto with seats.
    + assumption.
    + apply eachSeat_tail; auto with seats.
Qed.

Lemma cancel_unfold e sns o w :
  sns <> [] -> truthy o = true ->
  cancel e sns o w =
  match cancelLoop e o sns (seats w) with
  | inl r => (r, w)
  | inr tx => (mkResponse 200 (CancelledBody sns), withSeats w tx)
  end.
Proof.
  intros Hne Ho. unfold cancel. destruct sns; [contradiction|]. simpl.
  now rewrite Ho.
Qed.

(** A batch of distinct seats, all locked by the owner, is released whole;
    the expiry is not looked at. *)
Lemma cancel_ok w e sns o :
  unique_index (seats w) -> truthy o = true -> sns <> [] -> NoDup sns ->
  eachSeat (heldBy o) e sns (seats w) ->
  cancel e sns o w
  = (mkResponse 200 (CancelledBody sns),
     withSeats w (setEach e sns releaseUpdate (seats w)))
  /\ forall p, In p sns -> exists d,
       seatAt e p (seats w) = Some d /\
       seatAt e p (setEach e sns releaseUpdate (seats w))
       = Some (mkSeat e p available None None (bookingId d)).
Proof.
  intros U Ho Hne ND A. split.
  - rewrite cancel_unfold by assumption. now rewrite cancelLoop_ok.
  - intros p Hp. destruct (A p Hp) as [d [Hd _]]. exists d.
    split; [assumption|].
    rewrite (seatAt_setEach_in e p sns _ _ d) by auto with seats.
    destruct (seatAt_In _ _ _ _ Hd) as [_ K].
    now rewrite (releaseUpdate_seat e p d K).
Qed.

(** The answer at seat [s] when the seats before it are distinct and locked
    by the owner: they are released in the transaction, and [s] is judged
    as that transaction sees it. *)
Lemma cancel_at w e pre s post o :
  unique_index (seats w) -> truthy o = true -> NoDup pre ->
  eachSeat (heldBy o) e pre (seats w) ->
  cancel e (pre ++ s :: post) o w =
  match seatAt e s (setEach e pre releaseUpdate (seats w)) with
  | None => (notFound s, w)
  | Some d =>
      if Status_eqb (status d) booked then (conflictBooked s, w)
      else if Status_eqb (status d) locked && optString_eqb (lockOwner d) o
      then match cancelLoop e o post
                   (setEach e [s] releaseUpdate
                      (setEach e pre releaseUpdate (seats w))) with
           | inl r => (r, w)
           | inr tx =>
               (mkResponse 200 (CancelledBody (pre ++ s :: post)),
                withSeats w tx)
           end
      else (conflictNotYours s, w)
  end.
Proof.
  intros U Ho ND A.
  rewrite cancel_unfold; [|now destruct pre|assumption].
  rewrite cancelLoop_app, cancelLoop_ok, cancel_step
    by (auto; apply setEach_unique; auto with seats).
  destruct (seatAt e s _) as [d|]; [|reflexivity].
  destruct (Status_eqb (status d) booked); [reflexivity|].
  now destruct (_ && _).
Qed.

(** C6. Release goes through the batch in order, inside one transaction.
    With the seats before [s] distinct and locked by the owner: a missing
    [s] is answered 404; a booked [s] 409 (already booked); an available
    [s], a seat locked by someone else, and a seat this very batch has
    already released, 409 (not locked by you); in each case the store is
    unchanged, so no earlier release stays.  If [s] is locked by the owner
    and ends the batch, the answer is 200 and exactly the seats of the batch
    are available with owner and expiry cleared. *)
Theorem release_batch w e pre s post ownerId :
  unique_index (seats w) -> truthy ownerId = true -> NoDup pre ->
  eachSeat (heldBy ownerId) e pre (seats w) ->
  let r := cancel e (pre ++ s :: post) ownerId w in
  (seatAt e s (seats w) = None -> r = (notFound s, w))
  /\ (forall d, seatAt e s (seats w) = Some d ->
      (status d = booked -> r = (conflictBooked s, w))
      /\ (status d = available -> r = (conflictNotYours s, w))
      /\ (status d = locked -> lockOwner d <> Some ownerId ->
          r = (conflictNotYours s, w))
      /\ (heldBy ownerId d -> In s pre -> r = (conflictNotYours s, w))
      /\ (heldBy ownerId d -> ~ In s pre -> post = [] ->
          r = (mkResponse 200 (CancelledBody (pre ++ [s])),
               withSeats w (setEach e (pre ++ [s]) releaseUpdate (seats w)))
          /\ forall p, In p (pre ++ [s]) -> exists d0,
               seatAt e p (seats w) = Some d0 /\
               seatAt e p (setEach e (pre ++ [s]) releaseUpdate (seats w))
               = Some (mkSeat e p available None None (bookingId d0)))).
Proof.
  intros U Ho ND A r.
  pose proof (cancel_at w e pre s post ownerId U Ho ND A) as Stop.
  fold r in Stop.
  assert (Out : forall d, seatAt e s (seats w) = Some d -> ~ heldBy ownerId d ->
                seatAt e s (setEach e pre releaseUpdate (seats w)) = Some d).
  { intros d Hs Nh. rewrite seatAt_setEach_out; auto with seats.
    intros Hin. destruct (A s Hin) as [d' [Hd' Hh]]. congruence. }
  split.
  - intros Hs. rewrite seatAt_setEach, Hs in Stop by auto with seats.
    exact Stop.
  - intros d Hs. split; [|split; [|split; [|split]]].
    + intros B. rewrite (Out d Hs), B in Stop; [exact Stop|].
      intros [L _]. congruence.
    + intros Av. rewrite (Out d Hs), Av in Stop; [exact Stop|].
      intros [L _]. congruence.
    + intros L O. rewrite (Out d Hs), L in Stop; [|intros [_ O']; congruence].
      simpl in Stop.
      destruct (optString_eqb (lockOwner d) ownerId) eqn:T; [|exact Stop].
      apply optString_eqb_eq in T. contradiction.
    + intros _ Hin.
      now rewrite (seatAt_setEach_in e s pre _ _ d) in Stop by auto with seats.
    + intros Hh Hout ->. subst r.
      apply cancel_ok; auto.
      * now destruct pre.
      * apply NoDup_app; [assumption|constructor; [intros []|constructor]|].
        intros x Hx [<-|[]]. contradiction.
      * intros p Hp. apply in_app_or in Hp. destruct Hp as [Hp|[<-|[]]]; auto.
        now exists d.
Qed.

Lemma release_batch_witness :
  cancel 0%N ["C"; "D"] "u2" sampleWorld = (conflictBooked "D", sampleWorld)
  /\ cancel 0%N ["C"; "C"] "u2" sampleWorld = (conflictNotYours "C", sampleWorld).
Proof.
  assert (U : unique_index (seats sampleWorld)) by distinct.
  assert (ND : NoDup ["C"]) by distinct.
  assert (A : eachSeat (heldBy "u2") 0%N ["C"] (seats sampleWorld))
    by (each_seat; split; reflexivity).
  split.
  - pose proof (release_batch sampleWorld 0%N ["C"] "D" [] "u2" U eq_refl ND A)
      as T.
    cbv zeta in T. exact (proj1 (proj2 T seatD_booked eq_refl) eq_refl).
  - pose proof (release_batch sampleWorld 0%N ["C"] "C" [] "u2" U eq_refl ND A)
      as T.
    cbv zeta in T. destruct (proj2 T seatC_held eq_refl) as (_ & _ & _ & D & _).
    apply D; [split; reflexivity|simpl; auto].
Defined.

(** C10. Release does not look at the expiry.  A batch of distinct seats,
    all locked by the owner, is released whole although the lock on [s]
    has run out at [now] and no sweep has taken it: [s] ends available,
    with owner and expiry cleared, where a confirm by the same owner at
    [now] is answered 409. *)
Theorem release_ignores_expiry w e seatNumbers ownerId s d t now :
  unique_index (seats w) -> truthy ownerId = true -> NoDup seatNumbers ->
  eachSeat (heldBy ownerId) e seatNumbers (seats w) ->
  In s seatNumbers -> seatAt e s (seats w) = Some d ->
  lockExpiresAt d = Some t -> t < now ->
  cancel e seatNumbers ownerId w
  = (mkResponse 200 (CancelledBody seatNumbers),
     withSeats w (setEach e seatNumbers releaseUpdate (seats w)))
  /\ seatAt e s (setEach e seatNumbers releaseUpdate (seats w))
     = Some (mkSeat e s available None None (bookingId d))
  /\ (forall stamp,
        confirm e [s] ownerId now stamp w = (conflictNotConfirmable s, w)).
Proof.
  intros U Ho ND A Hin Hs E Ht.
  assert (Hne : seatNumbers <> []) by (intros ->; destruct Hin).
  destruct (cancel_ok w e seatNumbers ownerId U Ho Hne ND A) as [R Each].
  split; [exact R|]. split.
  - destruct (Each s Hin) as [d' [Hd' Hr]]. congruence.
  - intros stamp. apply (confirm_blocked_at w e [] s []); auto; [intros ? []|].
    rewrite Hs. intros ? [= <-] [_ [t' [E' Ht']]]. rewrite E in E'.
    injection E' as <-. lia.
Qed.

Lemma release_ignores_expiry_witness :
  cancel 0%N ["B"] "u1" sampleWorld
  = (mkResponse 200 (CancelledBody ["B"]),
     withSeats sampleWorld
       [seatA; newSeat 0%N "B"; seatC_held; seatD_booked]).
Proof.
  refine (proj1 (release_ignores_expiry sampleWorld 0%N ["B"] "u1" "B"
                   seatB_stale 50 100 _ eq_refl _ _ _ eq_refl eq_refl _)).
  - distinct.
  - distinct.
  - each_seat. split; reflexivity.
  - simpl. auto.
  - lia.
Defined.

(* ------------------------------------------------------------------ *)
(** ** Booked seats stay booked *)

Lemma keeps_booked_refl coll : keeps_booked coll coll.
Proof. intros i d H _. exact H. Qed.

Lemma keeps_booked_trans a b c :
  keeps_booked a b -> keeps_booked b c -> keeps_booked a c.
Proof. intros AB BC i d H B. apply BC; auto. Qed.

Lemma lockFilter_booked e sn now d :
  status d = booked -> lockFilter e sn now d = false.
Proof.
  intros B. unfold lockFilter. rewrite B. simpl. apply andb_false_r.
Qed.

Lemma expiredFilter_booked now d : status d = booked -> expiredFilter now d = false.
Proof. intros B. unfold expiredFilter. now rewrite B. Qed.

Lemma lockLoop_keeps_booked e o now x sns acc tx l tx' :
  lockLoop e o now x sns acc tx = inr (l, tx') -> keeps_booked tx tx'.
Proof.
  revert acc tx. induction sns as [|a sns IH]; intros acc tx; simpl.
  - intros [= _ <-]. apply keeps_booked_refl.
  - unfold findOneAndUpdate.
    destruct (findOne (lockFilter e a now) tx) as [hit|]; [|discriminate].
    intros H. apply IH in H. refine (keeps_booked_trans _ _ _ _ H).
    intros i d Hd B. apply updateOne_untouched; [assumption|].
    now apply lockFilter_booked.
Qed.

Lemma cancelLoop_keeps_booked e o sns tx tx' :
  cancelLoop e o sns tx = inr tx' -> keeps_booked tx tx'.
Proof.
  revert tx. induction sns as [|a sns IH]; intros tx; simpl.
  - intros [= <-]. apply keeps_booked_refl.
  - destruct (findOne (seatKey e a) tx) as [hit|] eqn:Hit; [|discriminate].
    destruct (Status_eqb (status hit) booked) eqn:B; [discriminate|].
    destruct (_ && _); [|discriminate].
    intros H. apply IH in H. refine (keeps_booked_trans _ _ _ _ H).
    intros i d Hd Bd. apply (updateOne_other _ _ _ _ _ hit); auto.
    intros ->. rewrite Bd in B. discriminate.
Qed.

Lemma sweep_keeps_booked now coll : keeps_booked coll (snd (sweep now coll)).
Proof.
  intros i d Hd B. unfold sweep. rewrite updateMany_snd.
  rewrite nth_error_map, Hd. simpl. now rewrite expiredFilter_booked.
Qed.

Lemma handle_keeps_booked w r :
  isLockCancelSweep r = true -> keeps_booked (seats w) (seats (handle w r)).
Proof.
  destruct r as [| e sns o ttl now | | e sns o | now]; simpl;
    try discriminate; intros _.
  - unfold lock. destruct (isEmpty sns); [apply keeps_booked_refl|].
    destruct (negb (truthy o)); [apply keeps_booked_refl|].
    destruct (lockExpiry now ttl) as [x|]; [|apply keeps_booked_refl].
    destruct (lockLoop _ _ _ _ _ _ _) as [r|[l tx]] eqn:H;
      [apply keeps_booked_refl|].
    simpl. now apply lockLoop_keeps_booked in H.
  - unfold cancel. destruct (isEmpty sns); [apply keeps_booked_refl|].
    destruct (negb (truthy o)); [apply keeps_booked_refl|].
    destruct (cancelLoop _ _ _ _) as [r|tx] eqn:H; [apply keeps_booked_refl|].
    simpl. now apply cancelLoop_keeps_booked in H.
  - unfold cleanupExpiredLocks.
    pose proof (sweep_keeps_booked now (seats w)) as H.
    now destruct (sweep now (seats w)).
Qed.

(** C4. No resurrection.  Through any run of acquire, release and sweep
    requests a booked seat document stays exactly as it is.  The mechanisms:
    the acquire filter and the sweep filter reject every booked document,
    and a release that reaches a booked seat is answered 409 with the store
    unchanged. *)
Theorem booked_never_resurrected w rs i d :
  forallb isLockCancelSweep rs = true ->
  nth_error (seats w) i = Some d -> status d = booked ->
  nth_error (seats (run w rs)) i = Some d
  /\ (forall e sn now, lockFilter e sn now d = false)
  /\ (forall now, expiredFilter now d = false)
  /\ (forall o post, truthy o = true ->
        seatAt (eventId d) (seatNumber d) (seats w) = Some d ->
        cancel (eventId d) (seatNumber d :: post) o w
        = (conflictBooked (seatNumber d), w)).
Proof.
  intros Hrs Hd B. split; [|split; [|split]].
  - revert w Hd Hrs. unfold run.
    induction rs as [|r rs IH]; intros w Hd Hrs; simpl in *; [assumption|].
    apply andb_true_iff in Hrs. destruct Hrs as [Hr Hrs].
    apply IH; [|assumption]. now apply (handle_keeps_booked w r Hr).
  - intros e sn now. now apply lockFilter_booked.
  - intros now. now apply expiredFilter_booked.
  - intros o post Ho Hs. unfold cancel. simpl. rewrite Ho. simpl.
    unfold seatAt in Hs. rewrite Hs, B. reflexivity.
Qed.

Lemma booked_never_resurrected_witness :
  nth_error
    (seats (run sampleWorld
              [Lock 0%N ["D"] "u3" 60%float 100; Sweep 1000;
               Cancel 0%N ["D"] "u3"; Lock 0%N ["A"; "B"] "u3" 60%float 2000]))
    3%nat = Some seatD_booked.
Proof.
  exact (proj1 (booked_never_resurrected sampleWorld
                  [Lock 0%N ["D"] "u3" 60%float 100; Sweep 1000;
                   Cancel 0%N ["D"] "u3"; Lock 0%N ["A"; "B"] "u3" 60%float 2000]
                  3%nat seatD_booked eq_refl eq_refl eq_refl)).
Defined.

(* ------------------------------------------------------------------ *)
(** ** The field invariant *)

Lemma newSeat_ok e sn : seat_ok (newSeat e sn).
Proof. unfold seat_ok. simpl. auto. Qed.

Lemma lockUpdate_ok o x d : seat_ok (lockUpdate o x d).
Proof. unfold seat_ok. simpl. repeat split; discriminate. Qed.

Lemma bookUpdate_ok b d : seat_ok (bookUpdate b d).
Proof. unfold seat_ok. simpl. repeat split; discriminate. Qed.

(** [releaseUpdate] leaves [bookingId] alone: the seat it is applied to must
    not carry one, which the invariant gives for a locked seat. *)
Lemma releaseUpdate_ok d : seat_ok d -> status d = locked -> seat_ok (releaseUpdate d).
Proof.
  unfold seat_ok. intros H L. rewrite L in H. simpl. tauto.
Qed.

Lemma lockLoop_ok_fields e o now x sns acc tx l tx' :
  Forall seat_ok tx -> lockLoop e o now x sns acc tx = inr (l, tx') ->
  Forall seat_ok tx'.
Proof.
  revert acc tx. induction sns as [|a sns IH]; intros acc tx F; simpl.
  - now intros [= _ <-].
  - unfold findOneAndUpdate.
    destruct (findOne (lockFilter e a now) tx) as [hit|]; [|discriminate].
    apply IH. apply updateOne_Forall_all; [assumption|].
    intros d _. apply lockUpdate_ok.
Qed.

Lemma bookLoop_ok_fields e bid sns tx :
  Forall seat_ok tx -> Forall seat_ok (bookLoop e bid sns tx).
Proof.
  revert tx. induction sns as [|a sns IH]; intros tx F; simpl; [assumption|].
  apply IH. apply updateOne_Forall_all; [assumption|].
  intros d _. apply bookUpdate_ok.
Qed.

Lemma cancelLoop_ok_fields e o sns tx tx' :
  Forall seat_ok tx -> cancelLoop e o sns tx = inr tx' -> Forall seat_ok tx'.
Proof.
  revert tx. induction sns as [|a sns IH]; intros tx F; simpl.
  - now intros [= <-].
  - destruct (findOne (seatKey e a) tx) as [hit|] eqn:Hit; [|discriminate].
    destruct (Status_eqb (status hit) booked); [discriminate|].
    destruct (Status_eqb (status hit) locked) eqn:L; [|discriminate].
    destruct (optString_eqb (lockOwner hit) o); [|discriminate]. simpl.
    apply IH. apply (updateOne_Forall _ _ _ _ hit); auto.
    apply Status_eqb_eq in L. apply releaseUpdate_ok; [|assumption].
    apply findOne_Some in Hit. destruct Hit as [Hin _].
    rewrite Forall_forall in F. now apply F.
Qed.

Lemma sweep_ok_fields now coll :
  Forall seat_ok coll -> Forall seat_ok (snd (sweep now coll)).
Proof.
  intros F. unfold sweep. rewrite updateMany_snd.
  rewrite Forall_forall in *. intros d Hd.
  apply in_map_iff in Hd. destruct Hd as [x [<- Hx]].
  destruct (expiredFilter now x) eqn:E; [|auto].
  apply expiredFilter_stale in E. destruct E as [L _].
  apply releaseUpdate_ok; auto.
Qed.

Lemma insertOrdered_ok_fields docs coll :
  Forall seat_ok docs -> Forall seat_ok coll ->
  Forall seat_ok (snd (insertOrdered docs coll)).
Proof.
  revert coll. induction docs as [|d docs IH]; intros coll Fd Fc; simpl.
  - assumption.
  - inversion Fd; subst.
    destruct (findOne _ coll); [assumption|].
    apply IH; [assumption|]. apply Forall_app. auto.
Qed.

Lemma handle_ok_fields w r :
  Forall seat_ok (seats w) -> Forall seat_ok (seats (handle w r)).
Proof.
  intros F.
  destruct r as [name md sns | e sns o ttl now | e sns o now stamp
                | e sns o | now]; simpl.
  - unfold createEvent. destruct (negb (truthy name)); [assumption|].
    destruct (isEmpty _); [assumption|]. unfold insertMany.
    destruct (forallb _ _); [|assumption]. simpl.
    pose proof (insertOrdered_ok_fields
                  (map (fun sn => newSeat (nextId w) sn) sns) (seats w)) as H.
    destruct (insertOrdered _ _) as [[err|] coll]; simpl in *; apply H; auto;
      apply Forall_forall; intros d Hd; apply in_map_iff in Hd;
      destruct Hd as [sn [<- _]]; apply newSeat_ok.
  - unfold lock. destruct (isEmpty sns); [assumption|].
    destruct (negb (truthy o)); [assumption|].
    destruct (lockExpiry now ttl) as [x|]; [|assumption].
    destruct (lockLoop _ _ _ _ _ _ _) as [r|[l tx]] eqn:H; [assumption|].
    simpl. now apply lockLoop_ok_fields in H.
  - unfold confirm. destruct (isEmpty sns); [assumption|].
    destruct (negb (truthy o)); [assumption|].
    destruct (confirmCheck _ _ _ _ _ _) as [r|found]; [assumption|].
    simpl. now apply bookLoop_ok_fields.
  - unfold cancel. destruct (isEmpty sns); [assumption|].
    destruct (negb (truthy o)); [assumption|].
    destruct (cancelLoop _ _ _ _) as [r|tx] eqn:H; [assumption|].
    simpl. now apply cancelLoop_ok_fields in H.
  - unfold cleanupExpiredLocks.
    pose proof (sweep_ok_fields now (seats w) F) as H.
    now destruct (sweep now (seats w)).
Qed.

Lemma run_ok_fields w rs :
  Forall seat_ok (seats w) -> Forall seat_ok (seats (run w rs)).
Proof.
  unfold run. revert w. induction rs as [|r rs IH]; intros w F; simpl.
  - assumption.
  - apply IH. now apply handle_ok_fields.
Qed.

(** C5. Seat creation, acquire, confirm, release and sweep keep the field
    invariant of every seat: an available seat has no owner, expiry or
    booking; a locked seat has an owner and an expiry and no booking; a
    booked seat has a booking and neither owner nor expiry.  Seats are
    created satisfying it. *)
Theorem field_invariant_preserved w :
  Forall seat_ok (seats w) ->
  (forall r, Forall seat_ok (seats (handle w r)))
  /\ (forall rs, Forall seat_ok (seats (run w rs)))
  /\ (forall e sn, seat_ok (newSeat e sn)).
Proof.
  intros F. split; [|split].
  - intros r. now apply handle_ok_fields.
  - intros rs. now apply run_ok_fields.
  - apply newSeat_ok.
Qed.

Lemma field_invariant_preserved_witness :
  Forall seat_ok
    (seats (run sampleWorld
              [CreateEvent "F" "" ["A"; "B"]; Lock 8%N ["A"] "u1" 60%float 100;
               Confirm 8%N ["A"] "u1" 200 201; Cancel 0%N ["C"] "u2";
               Sweep 300])).
Proof.
  refine (proj1 (proj2 (field_invariant_preserved sampleWorld _)) _).
  repeat constructor; unfold seat_ok; simpl; intuition discriminate.
Defined.

(* ------------------------------------------------------------------ *)
(** ** The sweep *)

Lemma releaseUpdate_changes now d : expiredFilter now d = true -> releaseUpdate d <> d.
Proof.
  intros E H. apply expiredFilter_stale in E. destruct E as [L _].
  apply (f_equal status) in H. simpl in H. congruence.
Qed.

Lemma sweep_snd now coll :
  snd (sweep now coll)
  = map (fun d => if expiredFilter now d then releaseUpdate d else d) coll.
Proof. apply updateMany_snd. Qed.

Lemma sweep_leaves_no_stale now coll d :
  In d (snd (sweep now coll)) -> expiredFilter now d = false.
Proof.
  rewrite sweep_snd. intros H. apply in_map_iff in H.
  destruct H as [x [<- _]].
  destruct (expiredFilter now x) eqn:E; [reflexivity|exact E].
Qed.

Lemma cleanupExpiredLocks_sweep now w :
  cleanupExpiredLocks now w
  = (sweepLog (fst (sweep now (seats w))),
     withSeats w (snd (sweep now (seats w)))).
Proof.
  unfold cleanupExpiredLocks, sweepLog.
  now destruct (sweep now (seats w)) as [n coll].
Qed.

(** C7. The sweep at [now] turns exactly the documents that are locked
    with an expiry not after [now] into available ones, owner and expiry
    cleared, every other document staying as it is; its [modifiedCount] is
    the number of those documents.  A second sweep at the same [now] finds
    no such document, modifies none, writes no console line and leaves the
    store as it is. *)
Theorem sweep_idempotent now w :
  let n := fst (sweep now (seats w)) in
  let coll' := snd (sweep now (seats w)) in
  List.length coll' = List.length (seats w)
  /\ (forall i d, nth_error (seats w) i = Some d ->
        (stale now d ->
         nth_error coll' i
         = Some (mkSeat (eventId d) (seatNumber d) available None None
                        (bookingId d)))
        /\ (~ stale now d -> nth_error coll' i = Some d))
  /\ n = List.length (filter (expiredFilter now) (seats w))
  /\ (forall d, expiredFilter now d = true <-> stale now d)
  /\ cleanupExpiredLocks now w = (sweepLog n, withSeats w coll')
  /\ (forall d, In d coll' -> ~ stale now d)
  /\ sweep now coll' = (O, coll')
  /\ cleanupExpiredLocks now (snd (cleanupExpiredLocks now w))
     = ([], snd (cleanupExpiredLocks now w)).
Proof.
  intros n coll'. subst n coll'.
  assert (Again : sweep now (snd (sweep now (seats w)))
                  = (O, snd (sweep now (seats w)))).
  { apply updateMany_no_match. intros d. apply sweep_leaves_no_stale. }
  split; [|split; [|split; [|split; [|split; [|split; [|split]]]]]].
  - rewrite sweep_snd. apply length_map.
  - intros i d H. split.
    + intros St. rewrite sweep_snd, nth_error_map, H. simpl.
      apply expiredFilter_stale in St. now rewrite St.
    + intros NSt. rewrite sweep_snd, nth_error_map, H. simpl.
      destruct (expiredFilter now d) eqn:E; [|reflexivity].
      apply expiredFilter_stale in E. contradiction.
  - apply updateMany_count. intros d _. apply releaseUpdate_changes.
  - intros d. apply expiredFilter_stale.
  - apply cleanupExpiredLocks_sweep.
  - intros d Hd St. apply expiredFilter_stale in St.
    rewrite (sweep_leaves_no_stale now (seats w) d Hd) in St. discriminate.
  - exact Again.
  - rewrite (cleanupExpiredLocks_sweep now w). simpl.
    rewrite cleanupExpiredLocks_sweep. simpl. now rewrite Again.
Qed.

(** The sweep of the sample store at 100 takes the one stale lock. *)
Example sweep_sample :
  cleanupExpiredLocks 100 sampleWorld
  = (["cleanupExpiredLocks: released 1 seats"],
     withSeats sampleWorld [seatA; newSeat 0%N "B"; seatC_held; seatD_booked])
  /\ cleanupExpiredLocks 100 (snd (cleanupExpiredLocks 100 sampleWorld))
     = ([], snd (cleanupExpiredLocks 100 sampleWorld)).
Proof. split; reflexivity. Qed.

(* ------------------------------------------------------------------ *)
(** ** Every reachable store is indexed and well formed *)

Lemma updateOne_keys (f : Seat -> bool) u coll :
  keeps_key u -> map keyOf (updateOne f u coll) = map keyOf coll.
Proof.
  intros K. induction coll as [|x rest IH]; simpl; [reflexivity|].
  destruct (f x); simpl; [now rewrite K|now rewrite IH].
Qed.

Lemma lockLoop_keys e o now x sns acc tx l tx' :
  lockLoop e o now x sns acc tx = inr (l, tx') ->
  map keyOf tx' = map keyOf tx.
Proof.
  revert acc tx. induction sns as [|a sns IH]; intros acc tx; simpl.
  - now intros [= _ <-].
  - unfold findOneAndUpdate.
    destruct (findOne (lockFilter e a now) tx); [|discriminate].
    intros H. apply IH in H. rewrite H. apply updateOne_keys. auto with seats.
Qed.

Lemma bookLoop_keys e bid sns tx :
  map keyOf (bookLoop e bid sns tx) = map keyOf tx.
Proof.
  revert tx. induction sns as [|a sns IH]; intros tx; simpl; [reflexivity|].
  rewrite IH. apply updateOne_keys. auto with seats.
Qed.

Lemma cancelLoop_keys e o sns tx tx' :
  cancelLoop e o sns tx = inr tx' -> map keyOf tx' = map keyOf tx.
Proof.
  revert tx. induction sns as [|a sns IH]; intros tx; simpl.
  - now intros [= <-].
  - destruct (findOne (seatKey e a) tx) as [hit|]; [|discriminate].
    destruct (Status_eqb (status hit) booked); [discriminate|].
    destruct (_ && _); [|discriminate].
    intros H. apply IH in H. rewrite H. apply updateOne_keys. auto with seats.
Qed.

Lemma sweep_keys now coll : map keyOf (snd (sweep now coll)) = map keyOf coll.
Proof.
  rewrite sweep_snd, map_map. apply map_ext. intros d.
  now destruct (expiredFilter now d).
Qed.

Lemma insertOrdered_unique docs coll :
  unique_index coll -> unique_index (snd (insertOrdered docs coll)).
Proof.
  revert coll. induction docs as [|d docs IH]; intros coll U; simpl.
  - assumption.
  - destruct (findOne _ coll) eqn:H; [assumption|].
    apply IH. unfold unique_index in *. rewrite map_app. simpl.
    apply NoDup_app; [assumption|constructor; [intros []|constructor]|].
    intros k Hk [<-|[]]. apply in_map_iff in Hk. destruct Hk as [x [E Hx]].
    rewrite findOne_None in H. specialize (H x Hx).
    assert (T : seatKey (eventId d) (seatNumber d) x = true)
      by now apply seatKey_spec.
    congruence.
Qed.

Lemma handle_unique w r :
  unique_index (seats w) -> unique_index (seats (handle w r)).
Proof.
  intros U.
  destruct r as [name md sns | e sns o ttl now | e sns o now stamp
                | e sns o | now]; simpl.
  - unfold createEvent. destruct (negb (truthy name)); [assumption|].
    destruct (isEmpty _); [assumption|]. unfold insertMany.
    destruct (forallb _ _); [|assumption]. simpl.
    pose proof (insertOrdered_unique
                  (map (fun sn => newSeat (nextId w) sn) sns) (seats w) U) as H.
    destruct (insertOrdered _ _) as [[err|] coll]; simpl in *; exact H.
  - unfold lock. destruct (isEmpty sns); [assumption|].
    destruct (negb (truthy o)); [assumption|].
    destruct (lockExpiry now ttl) as [x|]; [|assumption].
    destruct (lockLoop _ _ _ _ _ _ _) as [r|[l tx]] eqn:H; [assumption|].
    simpl. unfold unique_index. now rewrite (lockLoop_keys _ _ _ _ _ _ _ _ _ H).
  - unfold confirm. destruct (isEmpty sns); [assumption|].
    destruct (negb (truthy o)); [assumption|].
    destruct (confirmCheck _ _ _ _ _ _) as [r|found]; [assumption|].
    simpl. unfold unique_index. now rewrite bookLoop_keys.
  - unfold cancel. destruct (isEmpty sns); [assumption|].
    destruct (negb (truthy o)); [assumption|].
    destruct (cancelLoop _ _ _ _) as [r|tx] eqn:H; [assumption|].
    simpl. unfold unique_index. now rewrite (cancelLoop_keys _ _ _ _ _ H).
  - rewrite cleanupExpiredLocks_sweep. simpl.
    unfold unique_index. now rewrite sweep_keys.
Qed.

Lemma run_unique w rs :
  unique_index (seats w) -> unique_index (seats (run w rs)).
Proof.
  unfold run. revert w. induction rs as [|r rs IH]; intros w U; simpl.
  - assumption.
  - apply IH. now apply handle_unique.
Qed.

(** The hypotheses of the theorems above hold of every store the service
    can reach from the empty database. *)
Lemma reachable_store rs :
  unique_index (seats (run emptyWorld rs))
  /\ Forall seat_ok (seats (run emptyWorld rs)).
Proof.
  split.
  - apply run_unique. constructor.
  - apply run_ok_fields. constructor.
Qed.

(* ------------------------------------------------------------------ *)
(** ** The two scenarios of the specification, run *)

(** Lock [A1] for u1 with a ttl of 1 s; 2 s later u2 takes the stale lock
    over, and u1's confirm is then refused. *)
Example scenario_stale_reclaim :
  let w1 := snd (lock 0%N ["A1"] "u1" 1%float 10000 scenarioWorld) in
  let r2 := lock 0%N ["A1"] "u2" 60%float 12000 w1 in
  code (fst r2) = 200
  /\ seatAt 0%N "A1" (seats (snd r2)) = Some (lockedSeat 0%N "A1" "u2" 72000)
  /\ confirm 0%N ["A1"] "u1" 12001 12002 (snd r2)
     = (conflictNotConfirmable "A1", snd r2).
Proof. repeat split. Qed.

(** Lock [A1, A2] for u1, confirm: one Booking with both seats, both seats
    booked; a second confirm, by anyone, is refused. *)
Example scenario_confirm_once :
  let w1 := snd (lock 0%N ["A1"; "A2"] "u1" 60%float 10000 scenarioWorld) in
  let r2 := confirm 0%N ["A1"; "A2"] "u1" 11000 11001 w1 in
  fst r2 = mkResponse 201
             (BookingBody (mkBooking 1%N 0%N "u1" ["A1"; "A2"] 11001))
  /\ seats (snd r2)
     = [mkSeat 0%N "A1" booked None None (Some 1%N);
        mkSeat 0%N "A2" booked None None (Some 1%N)]
  /\ confirm 0%N ["A1"; "A2"] "u1" 12000 12001 (snd r2)
     = (conflictNotConfirmable "A1", snd r2)
  /\ confirm 0%N ["A2"] "u2" 12000 12001 (snd r2)
     = (conflictNotConfirmable "A2", snd r2).
Proof. repeat split. Qed.


(* ================================================================== *)
(** * Further properties of the handlers *)

(** ** What a committed transaction has done *)

Lemma seatAt_setEach_other e s e' sns u coll :
  keeps_key u -> e <> e' \/ ~ In s sns ->
  seatAt e s (setEach e' sns u coll) = seatAt e s coll.
Proof.
  intros K Hout. rewrite seatAt_setEach by assumption.
  destruct (seatAt e s coll) as [d|] eqn:H; [|reflexivity]. simpl.
  destruct (seatAt_In _ _ _ _ H) as [_ Hk]. injection Hk as He Hs.
  destruct (inBatch e' sns d) eqn:B; [|reflexivity].
  apply inBatch_spec in B. destruct B as [B1 B2]. subst.
  destruct Hout as [Hout|Hout]; contradiction.
Qed.

(** A loop that reached its end locked the whole batch, and found every
    seat of it acquirable in the store it started from. *)
Lemma lockLoop_inr e o now x sns acc tx l tx' :
  unique_index tx -> lockLoop e o now x sns acc tx = inr (l, tx') ->
  l = acc ++ map (fun sn => lockedSeat e sn o x) sns
  /\ tx' = setEach e sns (lockUpdate o x) tx
  /\ eachSeat (acquirable now) e sns tx.
Proof.
  revert acc tx. induction sns as [|a sns IH]; intros acc tx U; simpl.
  - intros [= <- <-]. rewrite app_nil_r, setEach_nil.
    repeat split. intros ? [].
  - rewrite lock_step by assumption.
    destruct (seatAt e a tx) as [da|] eqn:Ha; [|discriminate].
    destruct (lockCond now da) eqn:Ca; [|discriminate].
    intros H. apply IH in H; [|apply setEach_unique; auto with seats].
    destruct H as (-> & -> & A). split; [|split].
    + now rewrite <- app_assoc.
    + apply setEach_cons; auto with seats.
    + intros sn [<-|Hin].
      * exists da. split; [assumption|]. now apply lockCond_acquirable.
      * destruct (string_dec a sn) as [<-|Ne].
        -- exists da. split; [assumption|]. now apply lockCond_acquirable.
        -- destruct (A sn Hin) as [d [Hd Ad]]. exists d. split; [|assumption].
           rewrite seatAt_setEach_out in Hd; auto with seats.
           intros [E|[]]. contradiction.
Qed.

(** With an expiry ahead of [now], it met no seat twice. *)
Lemma lockLoop_inr_NoDup e o now x sns acc tx l tx' :
  unique_index tx -> now < x ->
  lockLoop e o now x sns acc tx = inr (l, tx') -> NoDup sns.
Proof.
  revert acc tx. induction sns as [|a sns IH]; intros acc tx U Hx; simpl.
  - constructor.
  - rewrite lock_step by assumption.
    destruct (seatAt e a tx) as [da|] eqn:Ha; [|discriminate].
    destruct (lockCond now da) eqn:Ca; [|discriminate].
    intros H.
    assert (U1 : unique_index (setEach e [a] (lockUpdate o x) tx))
      by (apply setEach_unique; auto with seats).
    constructor; [|now apply (IH _ _ U1 Hx H)].
    intros Hin. apply (lockLoop_inr _ _ _ _ _ _ _ _ _ U1) in H.
    destruct H as (_ & _ & A). destruct (A a Hin) as [d [Hd Ad]].
    rewrite (seatAt_setEach_in e a [a] _ _ da) in Hd by (simpl; auto with seats).
    injection Hd as <-. apply lockCond_acquirable in Ad.
    unfold lockCond, expires_lte in Ad. simpl in Ad.
    apply Z.leb_le in Ad. lia.
Qed.

Lemma confirmCheck_inr e o now sns acc tx found :
  unique_index tx -> confirmCheck e o now sns acc tx = inr found ->
  eachSeat (confirmable o now) e sns tx.
Proof.
  intros U. revert acc. induction sns as [|a sns IH]; intros acc; simpl.
  - intros _ ? [].
  - rewrite confirm_step by assumption.
    destruct (seatAt e a tx) as [da|] eqn:Ha; [|discriminate].
    destruct (confirmCond o now da) eqn:Ca; [|discriminate].
    intros H sn [<-|Hin].
    + exists da. split; [assumption|]. now apply confirmCond_confirmable.
    + exact (IH _ H sn Hin).
Qed.

(** A release loop that reached its end met distinct seats, all locked by
    the owner in the store it started from, and released exactly them. *)
Lemma cancelLoop_inr e o sns tx tx' :
  unique_index tx -> cancelLoop e o sns tx = inr tx' ->
  NoDup sns /\ eachSeat (heldBy o) e sns tx
  /\ tx' = setEach e sns releaseUpdate tx.
Proof.
  revert tx. induction sns as [|a sns IH]; intros tx U.
  - simpl. intros [= <-]. rewrite setEach_nil.
    repeat split; [constructor|intros ? []].
  - rewrite cancel_step by assumption.
    destruct (seatAt e a tx) as [da|] eqn:Ha; [|discriminate].
    destruct (Status_eqb (status da) booked); [discriminate|].
    destruct (_ && _) eqn:T; [|discriminate].
    apply heldBy_test in T. intros H.
    apply IH in H; [|apply setEach_unique; auto with seats].
    destruct H as (ND & A & ->).
    assert (Hout : ~ In a sns).
    { intros Hin. destruct (A a Hin) as [d [Hd [L _]]].
      rewrite (seatAt_setEach_in e a [a] _ _ da) in Hd
        by (simpl; auto with seats).
      injection Hd as <-. discriminate. }
    split; [now constructor|]. split.
    + intros sn [<-|Hin]; [now exists da|].
      destruct (A sn Hin) as [d [Hd Hh]]. exists d. split; [|assumption].
      rewrite seatAt_setEach_out in Hd; auto with seats.
      intros [<-|[]]. contradiction.
    + apply setEach_cons; auto with seats.
Qed.

Lemma lock_cases e sns o ttl now w :
  (exists l tx x,
      isEmpty sns = false /\ truthy o = true /\ lockExpiry now ttl = Some x
      /\ lockLoop e o now x sns [] (seats w) = inr (l, tx)
      /\ lock e sns o ttl now w
         = (mkResponse 200 (LockedSeatsBody l), withSeats w tx))
  \/ ((code (fst (lock e sns o ttl now w)) = 400
       \/ code (fst (lock e sns o ttl now w)) = 409
       \/ code (fst (lock e sns o ttl now w)) = 500)
      /\ snd (lock e sns o ttl now w) = w).
Proof.
  unfold lock. destruct (isEmpty sns); [right; simpl; auto|].
  destruct (truthy o); simpl; [|right; simpl; auto].
  destruct (lockExpiry now ttl) as [x|]; [|right; simpl; auto].
  destruct (lockLoop _ _ _ _ _ _ _) as [r|[l tx]] eqn:H.
  - right. simpl. split; [|reflexivity]. right. left.
    exact (lockLoop_inl_code _ _ _ _ _ _ _ _ H).
  - left. exists l, tx, x. auto.
Qed.

Lemma lock_not_200 e sns o ttl now w :
  code (fst (lock e sns o ttl now w)) = 400
  \/ code (fst (lock e sns o ttl now w)) = 409
  \/ code (fst (lock e sns o ttl now w)) = 500 ->
  code (fst (lock e sns o ttl now w)) <> 200.
Proof. intros [H|[H|H]]; rewrite H; discriminate. Qed.

(** X1. Acquire is all or nothing, whatever the batch.  An answer other than
    200 is a 400, a 409 or a 500 and leaves the whole store as it was; with
    a batch and an owner given, the 500 is the answer exactly to an expiry
    that is an Invalid Date.  A 200 means that the expiry stamped, the Date
    of [now + ttlSeconds * 1000], is valid and that every seat of the batch
    was available or stale at [now]; it lists one locked seat per entry of
    the batch, and in the store exactly the seats of the batch are locked by
    the owner until that expiry, every other seat, booking and event being
    as before. *)
Theorem lock_all_or_nothing w e seatNumbers ownerId ttl now :
  unique_index (seats w) ->
  let r := lock e seatNumbers ownerId ttl now w in
  (code (fst r) <> 200 ->
   (code (fst r) = 400 \/ code (fst r) = 409 \/ code (fst r) = 500)
   /\ snd r = w)
  /\ (seatNumbers <> [] -> truthy ownerId = true ->
      (code (fst r) = 500 <-> lockExpiry now ttl = None))
  /\ (code (fst r) = 200 ->
      exists expiresAt,
        lockExpiry now ttl = Some expiresAt
        /\ eachSeat (acquirable now) e seatNumbers (seats w)
        /\ r = (mkResponse 200
                  (LockedSeatsBody
                     (map (fun sn => lockedSeat e sn ownerId expiresAt)
                          seatNumbers)),
                withSeats w (setEach e seatNumbers
                                     (lockUpdate ownerId expiresAt) (seats w)))
        /\ (forall sn, In sn seatNumbers ->
              seatAt e sn (seats (snd r))
              = Some (lockedSeat e sn ownerId expiresAt))
        /\ (forall e' sn, e' <> e \/ ~ In sn seatNumbers ->
              seatAt e' sn (seats (snd r)) = seatAt e' sn (seats w))).
Proof.
  intros U r. subst r. split; [|split].
  - destruct (lock_cases e seatNumbers ownerId ttl now w)
      as [(l & tx & x' & _ & _ & _ & _ & ->)|H]; [simpl; congruence|auto].
  - intros Hne Ho. destruct (lockExpiry now ttl) as [x|] eqn:Hx.
    + split; [|discriminate]. rewrite (lock_unfold _ _ _ _ _ x) by assumption.
      destruct (lockLoop _ _ _ _ _ _ _) as [r|[l tx]] eqn:Hl; simpl.
      * rewrite (lockLoop_inl_code _ _ _ _ _ _ _ _ Hl). discriminate.
      * discriminate.
    + rewrite lock_invalid by assumption. split; reflexivity.
  - destruct (lock_cases e seatNumbers ownerId ttl now w)
      as [(l & tx & x & Em & Ho & Hx & Hl & ->)|[Hc Hw]].
    + intros _. exists x.
      destruct (lockLoop_inr _ _ _ _ _ _ _ _ _ U Hl) as (-> & -> & A).
      simpl. repeat split; auto.
      * intros sn Hin. destruct (A sn Hin) as [d [Hd _]].
        rewrite (seatAt_setEach_in e sn seatNumbers _ _ d) by auto with seats.
        destruct (seatAt_In _ _ _ _ Hd) as [_ K].
        now rewrite (lockUpdate_lockedSeat e sn _ _ d K).
      * intros e' sn Hout. apply seatAt_setEach_other; auto with seats.
    + intros H. now apply lock_not_200 in Hc.
Qed.

Lemma lock_all_or_nothing_witness :
  exists expiresAt,
    lockExpiry 100 60%float = Some expiresAt
    /\ eachSeat (acquirable 100) 0%N ["A"; "B"] (seats sampleWorld)
    /\ lock 0%N ["A"; "B"] "u9" 60%float 100 sampleWorld
       = (mkResponse 200
            (LockedSeatsBody
               (map (fun sn => lockedSeat 0%N sn "u9" expiresAt) ["A"; "B"])),
          withSeats sampleWorld
            (setEach 0%N ["A"; "B"] (lockUpdate "u9" expiresAt)
                     (seats sampleWorld))).
Proof.
  pose proof (lock_all_or_nothing sampleWorld 0%N ["A"; "B"] "u9" 60%float 100
                ltac:(distinct)) as T.
  cbv zeta in T. destruct (proj2 (proj2 T) eq_refl) as (x & Hx & A & R & _).
  exists x. auto.
Defined.

(** ** Exactly when a request succeeds *)

Lemma confirmCheck_inl_code e o now sns acc tx r :
  confirmCheck e o now sns acc tx = inl r -> code r = 409.
Proof.
  revert acc. induction sns as [|a sns IH]; intros acc; simpl.
  - discriminate.
  - destruct (findOne _ tx); [apply IH|]. now intros [= <-].
Qed.

Lemma cancelLoop_inl_code e o sns tx r :
  cancelLoop e o sns tx = inl r -> code r = 404 \/ code r = 409.
Proof.
  revert tx. induction sns as [|a sns IH]; intros tx; simpl.
  - discriminate.
  - destruct (findOne _ tx) as [d|]; [|intros [= <-]; now left].
    destruct (Status_eqb (status d) booked); [intros [= <-]; now right|].
    destruct (_ && _); [apply IH|intros [= <-]; now right].
Qed.

(** X2. When the expiry stamped, the Date of [now + ttlSeconds * 1000], is
    valid and strictly after [now], an acquire with a non-empty batch and an
    owner is answered 200 exactly when the seat numbers of the batch are
    distinct and every one of them names a seat that is available or stale
    at [now]. *)
Theorem lock_succeeds_iff w e seatNumbers ownerId ttl now expiresAt :
  unique_index (seats w) -> seatNumbers <> [] -> truthy ownerId = true ->
  lockExpiry now ttl = Some expiresAt -> now < expiresAt ->
  code (fst (lock e seatNumbers ownerId ttl now w)) = 200
  <-> NoDup seatNumbers /\ eachSeat (acquirable now) e seatNumbers (seats w).
Proof.
  intros U Hne Ho Hx Hlt. rewrite (lock_unfold _ _ _ _ _ expiresAt) by assumption.
  split.
  - destruct (lockLoop _ _ _ _ _ _ _) as [r|[l tx]] eqn:Hl; simpl.
    + rewrite (lockLoop_inl_code _ _ _ _ _ _ _ _ Hl). discriminate.
    + intros _. split.
      * now apply (lockLoop_inr_NoDup _ _ _ _ _ _ _ _ _ U Hlt Hl).
      * now destruct (lockLoop_inr _ _ _ _ _ _ _ _ _ U Hl) as (_ & _ & A).
  - intros [ND A].
    now rewrite (lockLoop_ok e ownerId now _ seatNumbers [] (seats w) U ND A).
Qed.

Lemma lock_succeeds_iff_witness :
  code (fst (lock 0%N ["A"; "B"] "u9" 60%float 100 sampleWorld)) = 200
  <-> NoDup ["A"; "B"]
      /\ eachSeat (acquirable 100) 0%N ["A"; "B"] (seats sampleWorld).
Proof.
  apply (lock_succeeds_iff sampleWorld 0%N ["A"; "B"] "u9" 60%float 100 60100).
  - distinct.
  - discriminate.
  - reflexivity.
  - reflexivity.
  - lia.
Defined.

(** X3. A confirm with a non-empty batch and an owner is answered 201
    exactly when every seat number of the batch names a seat locked by that
    owner with its expiry strictly after [now]; repetitions in the batch do
    not matter.  Any other answer is a 409 and leaves the store, bookings
    included, as it was. *)
Theorem confirm_succeeds_iff w e seatNumbers ownerId now stamp :
  unique_index (seats w) -> seatNumbers <> [] -> truthy ownerId = true ->
  let r := confirm e seatNumbers ownerId now stamp w in
  (code (fst r) = 201
   <-> eachSeat (confirmable ownerId now) e seatNumbers (seats w))
  /\ (code (fst r) <> 201 -> code (fst r) = 409 /\ snd r = w).
Proof.
  intros U Hne Ho r. subst r. rewrite confirm_unfold by assumption.
  destruct (confirmCheck e ownerId now seatNumbers [] (seats w))
    as [r|found] eqn:H.
  - pose proof (confirmCheck_inl_code _ _ _ _ _ _ _ H) as Hc. simpl.
    split; [split|auto].
    + rewrite Hc. discriminate.
    + intros A.
      destruct (confirmCheck_ok e ownerId now seatNumbers [] (seats w) U A)
        as [found E].
      congruence.
  - simpl. split; [|congruence].
    split; [intros _|reflexivity].
    exact (confirmCheck_inr _ _ _ _ _ _ _ U H).
Qed.

Lemma confirm_succeeds_iff_witness :
  code (fst (confirm 0%N ["C"; "C"] "u2" 100 101 sampleWorld)) = 201
  <-> eachSeat (confirmable "u2" 100) 0%N ["C"; "C"] (seats sampleWorld).
Proof.
  refine (proj1 (confirm_succeeds_iff sampleWorld 0%N ["C"; "C"] "u2" 100 101
                   _ _ eq_refl)).
  - distinct.
  - discriminate.
Defined.

(** X4. A release with a non-empty batch and an owner is answered 200
    exactly when the seat numbers of the batch are distinct and every one of
    them names a seat locked by that owner.  Any other answer is a 404 or a
    409 and leaves the store as it was. *)
Theorem cancel_succeeds_iff w e seatNumbers ownerId :
  unique_index (seats w) -> seatNumbers <> [] -> truthy ownerId = true ->
  let r := cancel e seatNumbers ownerId w in
  (code (fst r) = 200
   <-> NoDup seatNumbers /\ eachSeat (heldBy ownerId) e seatNumbers (seats w))
  /\ (code (fst r) <> 200 ->
      (code (fst r) = 404 \/ code (fst r) = 409) /\ snd r = w).
Proof.
  intros U Hne Ho r. subst r. rewrite cancel_unfold by assumption.
  destruct (cancelLoop e ownerId seatNumbers (seats w)) as [r|tx] eqn:H.
  - pose proof (cancelLoop_inl_code _ _ _ _ _ H) as Hc. simpl.
    split; [split|auto].
    + intros E. destruct Hc as [Hc|Hc]; rewrite Hc in E; discriminate.
    + intros [ND A].
      rewrite (cancelLoop_ok e ownerId seatNumbers (seats w) U ND A) in H.
      discriminate.
  - simpl. split; [|congruence].
    split; [intros _|reflexivity].
    destruct (cancelLoop_inr _ _ _ _ _ U H) as (ND & A & _). auto.
Qed.

Lemma cancel_succeeds_iff_witness :
  (code (fst (cancel 0%N ["B"; "C"] "u1" sampleWorld)) = 404
   \/ code (fst (cancel 0%N ["B"; "C"] "u1" sampleWorld)) = 409)
  /\ snd (cancel 0%N ["B"; "C"] "u1" sampleWorld) = sampleWorld.
Proof.
  refine (proj2 (cancel_succeeds_iff sampleWorld 0%N ["B"; "C"] "u1"
                   _ _ eq_refl) _).
  - distinct.
  - discriminate.
  - simpl. discriminate.
Defined.

(** ** A running lease is out of everyone else's reach *)

Lemma seatAt_map e s (g : Seat -> Seat) coll :
  keeps_key g -> seatAt e s (map g coll) = option_map g (seatAt e s coll).
Proof.
  intros K. unfold seatAt. induction coll as [|x rest IH]; simpl; [reflexivity|].
  rewrite (seatKey_keyOf e s (g x) x (K x)).
  destruct (seatKey e s x); [reflexivity|apply IH].
Qed.

Lemma seatAt_app e s coll more d :
  seatAt e s coll = Some d -> seatAt e s (coll ++ more) = Some d.
Proof.
  unfold seatAt. induction coll as [|x rest IH]; simpl; [discriminate|].
  destruct (seatKey e s x); auto.
Qed.

Lemma insertOrdered_appends docs coll :
  exists added, snd (insertOrdered docs coll) = coll ++ added.
Proof.
  revert coll. induction docs as [|d docs IH]; intros coll; simpl.
  - exists []. now rewrite app_nil_r.
  - destruct (findOne _ coll).
    + exists []. now rewrite app_nil_r.
    + destruct (IH (coll ++ [d])) as [added E]. exists (d :: added).
      now rewrite E, <- app_assoc.
Qed.

(** Seat creation only appends to the collection. *)
Lemma createEvent_appends name md sns w :
  exists added, seats (snd (createEvent name md sns w)) = seats w ++ added.
Proof.
  unfold createEvent. destruct (negb (truthy name)).
  { exists []. now rewrite app_nil_r. }
  destruct (isEmpty _).
  { exists []. now rewrite app_nil_r. }
  unfold insertMany. destruct (forallb _ _).
  - destruct (insertOrdered_appends
                (map (fun sn => newSeat (nextId w) sn) sns) (seats w))
      as [added E].
    simpl in *. exists added.
    destruct (insertOrdered _ _) as [[err|] coll]; simpl in *; exact E.
  - exists []. simpl. now rewrite app_nil_r.
Qed.

Lemma sweepDoc_key now :
  keeps_key (fun d => if expiredFilter now d then releaseUpdate d else d).
Proof. intros d. now destruct (expiredFilter now d). Qed.

Lemma handle_leaves_lease w r e s d o x :
  unique_index (seats w) -> seatAt e s (seats w) = Some d ->
  status d = locked -> lockOwner d = Some o -> lockExpiresAt d = Some x ->
  leavesLease o x r = true ->
  seatAt e s (seats (handle w r)) = Some d.
Proof.
  intros U Hs L O E Hr.
  destruct (seatAt_In _ _ _ _ Hs) as [_ K].
  destruct r as [name md sns | e' sns o' ttl now | e' sns o' now stamp
                | e' sns o' | now]; simpl in *.
  - destruct (createEvent_appends name md sns w) as [added ->].
    now apply seatAt_app.
  - apply Z.ltb_lt in Hr.
    destruct (lock_cases e' sns o' ttl now w)
      as [(l & tx & x' & _ & _ & _ & Hl & ->)|[_ ->]]; [|assumption].
    destruct (lockLoop_inr _ _ _ _ _ _ _ _ _ U Hl) as (_ & -> & A). simpl.
    rewrite seatAt_setEach_other; auto with seats.
    destruct (N.eq_dec e e') as [<-|Ne]; [right|now left].
    intros Hin. destruct (A s Hin) as [d' [Hd' Ad']].
    rewrite Hs in Hd'. injection Hd' as <-.
    apply (unavailable_not_acquirable now d); [|assumption].
    right. split; [assumption|]. now exists x.
  - apply negb_true_iff in Hr. unfold confirm.
    destruct (isEmpty sns); [assumption|].
    destruct (negb (truthy o')); [assumption|].
    destruct (confirmCheck _ _ _ _ _ _) as [r|found] eqn:H; [assumption|].
    simpl. rewrite bookLoop_setEach by assumption.
    rewrite seatAt_setEach_other; auto with seats.
    destruct (N.eq_dec e e') as [<-|Ne]; [right|now left].
    intros Hin.
    destruct (confirmCheck_inr _ _ _ _ _ _ _ U H s Hin) as [d' [Hd' [[_ O'] _]]].
    rewrite Hs in Hd'. injection Hd' as <-. rewrite O in O'.
    injection O' as <-. now rewrite String.eqb_refl in Hr.
  - apply negb_true_iff in Hr. unfold cancel.
    destruct (isEmpty sns); [assumption|].
    destruct (negb (truthy o')); [assumption|].
    destruct (cancelLoop _ _ _ _) as [r|tx] eqn:H; [assumption|].
    destruct (cancelLoop_inr _ _ _ _ _ U H) as (_ & A & ->). simpl.
    rewrite seatAt_setEach_other; auto with seats.
    destruct (N.eq_dec e e') as [<-|Ne]; [right|now left].
    intros Hin. destruct (A s Hin) as [d' [Hd' [_ O']]].
    rewrite Hs in Hd'. injection Hd' as <-. rewrite O in O'.
    injection O' as <-. now rewrite String.eqb_refl in Hr.
  - apply Z.ltb_lt in Hr. rewrite cleanupExpiredLocks_sweep. simpl.
    rewrite sweep_snd, seatAt_map, Hs by apply sweepDoc_key. simpl.
    destruct (expiredFilter now d) eqn:X; [|reflexivity].
    apply expiredFilter_stale in X. destruct X as [_ [t [Et Ht]]].
    rewrite E in Et. injection Et as <-. lia.
Qed.

(** X5. A lease excludes everyone else while it runs.  A seat locked by
    owner [o] until [x] is still exactly that after any run of requests in
    which the acquires and sweeps read a clock before [x] and the confirms
    and releases come from other owners: no other caller can take, book or
    free it, and [o] itself cannot re-lock it. *)
Theorem lease_protected w rs e s d o x :
  unique_index (seats w) -> seatAt e s (seats w) = Some d ->
  status d = locked -> lockOwner d = Some o -> lockExpiresAt d = Some x ->
  forallb (leavesLease o x) rs = true ->
  seatAt e s (seats (run w rs)) = Some d.
Proof.
  intros U Hs L O E. unfold run. revert w U Hs.
  induction rs as [|r rs IH]; intros w U Hs Hrs; simpl in *; [assumption|].
  apply andb_true_iff in Hrs. destruct Hrs as [Hr Hrs].
  apply IH; [now apply handle_unique| |assumption].
  now apply (handle_leaves_lease w r e s d o x).
Qed.

Lemma lease_protected_witness :
  seatAt 0%N "C"
    (seats (run sampleWorld
              [Lock 0%N ["A"; "C"] "u1" 60%float 100; Lock 0%N ["C"] "u2" 60%float 499;
               Sweep 499; Cancel 0%N ["C"] "u1";
               Confirm 0%N ["C"] "u1" 100 101; CreateEvent "F" "" ["C"]]))
  = Some seatC_held.
Proof.
  refine (lease_protected sampleWorld
            [Lock 0%N ["A"; "C"] "u1" 60%float 100; Lock 0%N ["C"] "u2" 60%float 499;
             Sweep 499; Cancel 0%N ["C"] "u1";
             Confirm 0%N ["C"] "u1" 100 101; CreateEvent "F" "" ["C"]]
            0%N "C" seatC_held "u2" 500
            _ eq_refl eq_refl eq_refl eq_refl eq_refl).
  distinct.
Defined.

(** ** Acquire, then confirm or release *)

Lemma lock_committed w e sns o ttl now :
  unique_index (seats w) ->
  code (fst (lock e sns o ttl now w)) = 200 ->
  exists x,
    lockExpiry now ttl = Some x /\ sns <> [] /\ truthy o = true
    /\ eachSeat (acquirable now) e sns (seats w)
    /\ snd (lock e sns o ttl now w)
       = withSeats w (setEach e sns (lockUpdate o x) (seats w)).
Proof.
  intros U Hc.
  destruct (lock_cases e sns o ttl now w)
    as [(l & tx & x & Em & Ho & Hx & Hl & E)|[H _]];
    [|now apply lock_not_200 in H].
  destruct (lockLoop_inr _ _ _ _ _ _ _ _ _ U Hl) as (_ & -> & A).
  exists x. rewrite E. repeat split; auto. intros ->. discriminate.
Qed.

(** X6. Acquire, then confirm.  After an acquire answered 200, a confirm of
    the same batch by the same owner at any time strictly before the expiry
    that the acquire stamped (the Date of [now + ttlSeconds * 1000], cut to
    the millisecond) is answered 201: one Booking listing the batch is added
    and exactly the seats of the batch end booked under it. *)
Theorem lock_then_confirm w e seatNumbers ownerId ttl now expiresAt now2 stamp :
  unique_index (seats w) ->
  code (fst (lock e seatNumbers ownerId ttl now w)) = 200 ->
  lockExpiry now ttl = Some expiresAt -> now2 < expiresAt ->
  let booking := mkBooking (nextId w) e ownerId seatNumbers stamp in
  confirm e seatNumbers ownerId now2 stamp
          (snd (lock e seatNumbers ownerId ttl now w))
  = (mkResponse 201 (BookingBody booking),
     mkWorld (setEach e seatNumbers (bookUpdate (nextId w)) (seats w))
             (bookings w ++ [booking]) (events w) (N.succ (nextId w))).
Proof.
  intros U Hc Hx Ht booking.
  destruct (lock_committed w e seatNumbers ownerId ttl now U Hc)
    as (x & Hx' & Hne & Ho & A & ->).
  rewrite Hx in Hx'. injection Hx' as <-.
  assert (U1 : unique_index (setEach e seatNumbers
                               (lockUpdate ownerId expiresAt) (seats w)))
    by (apply setEach_unique; auto with seats).
  assert (C : eachSeat (confirmable ownerId now2) e seatNumbers
                (setEach e seatNumbers (lockUpdate ownerId expiresAt) (seats w))).
  { intros sn Hin. destruct (A sn Hin) as [d [Hd _]].
    exists (lockUpdate ownerId expiresAt d). split.
    - apply seatAt_setEach_in; auto with seats.
    - split; [split; reflexivity|]. exists expiresAt.
      split; [reflexivity|assumption]. }
  rewrite confirm_unfold by assumption. simpl.
  destruct (confirmCheck_ok e ownerId now2 seatNumbers [] _ U1 C) as [found ->].
  rewrite bookLoop_setEach by assumption.
  rewrite setEach_absorb by (auto with seats). reflexivity.
Qed.

Lemma lock_then_confirm_witness :
  confirm 0%N ["A"; "B"] "u9" 60099 60100
          (snd (lock 0%N ["A"; "B"] "u9" 60%float 100 sampleWorld))
  = (mkResponse 201 (BookingBody (mkBooking 8%N 0%N "u9" ["A"; "B"] 60100)),
     mkWorld [mkSeat 0%N "A" booked None None (Some 8%N);
              mkSeat 0%N "B" booked None None (Some 8%N);
              seatC_held; seatD_booked]
             [mkBooking 8%N 0%N "u9" ["A"; "B"] 60100]
             [mkEvent 0%N "E" ""] 9%N).
Proof.
  refine (lock_then_confirm sampleWorld 0%N ["A"; "B"] "u9" 60%float 100
            60100 60099 60100 _ eq_refl eq_refl _).
  - distinct.
  - lia.
Defined.

Lemma withSeats_same w : withSeats w (seats w) = w.
Proof. now destruct w. Qed.

Lemma seatAt_of_member e sns coll d :
  unique_index coll -> In d coll -> inBatch e sns d = true ->
  In (seatNumber d) sns /\ seatAt e (seatNumber d) coll = Some d.
Proof.
  intros U Hd B. apply inBatch_spec in B. destruct B as [<- Hin].
  split; [assumption|].
  destruct (seatAt (eventId d) (seatNumber d) coll) as [d'|] eqn:H.
  - destruct (seatAt_In _ _ _ _ H) as [Hd' K].
    f_equal. apply (unique_index_one coll d' d U Hd' Hd). exact K.
  - unfold seatAt in H. rewrite findOne_None in H. specialize (H d Hd).
    assert (T : seatKey (eventId d) (seatNumber d) d = true)
      by now apply seatKey_spec.
    congruence.
Qed.

(** X7. Acquire, then release, is a round trip.  When the expiry is a
    valid Date and the batch names distinct available seats (with no owner,
    expiry or booking, as the invariant has them), an acquire followed by
    the owner's release of the same batch is answered 200 and gives back
    the six schema paths of every seat, the bookings and the events as they
    were, whichever expiry was stamped and however long after. *)
Theorem lock_then_cancel w e seatNumbers ownerId ttl now expiresAt :
  unique_index (seats w) -> seatNumbers <> [] -> truthy ownerId = true ->
  lockExpiry now ttl = Some expiresAt -> NoDup seatNumbers ->
  eachSeat (fun d => status d = available /\ seat_ok d) e seatNumbers (seats w) ->
  code (fst (lock e seatNumbers ownerId ttl now w)) = 200
  /\ cancel e seatNumbers ownerId (snd (lock e seatNumbers ownerId ttl now w))
     = (mkResponse 200 (CancelledBody seatNumbers), w).
Proof.
  intros U Hne Ho Hx ND A.
  assert (Acq : eachSeat (acquirable now) e seatNumbers (seats w)).
  { apply (eachSeat_weaken _ _ _ _ _ _ (fun d H => or_introl (proj1 H))
             (fun sn H => H) A). }
  rewrite (lock_unfold _ _ _ _ _ expiresAt) by assumption.
  rewrite (lockLoop_ok e ownerId now _ seatNumbers [] (seats w) U ND Acq).
  split; [reflexivity|]. simpl.
  set (x := expiresAt).
  destruct (cancel_ok (withSeats w (setEach e seatNumbers (lockUpdate ownerId x)
                                            (seats w)))
                      e seatNumbers ownerId) as [-> _]; auto.
  - apply setEach_unique; auto with seats.
  - intros sn Hin. destruct (A sn Hin) as [d [Hd _]].
    exists (lockUpdate ownerId x d). split; [|split; reflexivity].
    apply seatAt_setEach_in; auto with seats.
  - f_equal. unfold withSeats. simpl.
    rewrite <- (withSeats_same w) at 5. unfold withSeats. f_equal.
    unfold setEach. rewrite map_map. rewrite <- (map_id (seats w)) at 2.
    apply map_ext_in. intros d Hd.
    destruct (inBatch e seatNumbers d) eqn:B; [|now rewrite B].
    rewrite (inBatch_keyOf e seatNumbers (lockUpdate ownerId x d) d eq_refl), B.
    destruct (seatAt_of_member e seatNumbers (seats w) d U Hd B) as [Hin Hs].
    destruct (A (seatNumber d) Hin) as [d' [Hd' [Av Ok]]].
    apply inBatch_spec in B. destruct B as [<- _].
    rewrite Hs in Hd'. injection Hd' as <-.
    unfold seat_ok in Ok. rewrite Av in Ok. destruct Ok as (O1 & O2 & O3).
    destruct d; simpl in *. subst. reflexivity.
Qed.

Lemma lock_then_cancel_witness :
  cancel 0%N ["A"] "u9" (snd (lock 0%N ["A"] "u9" 0%float 100 sampleWorld))
  = (mkResponse 200 (CancelledBody ["A"]), sampleWorld).
Proof.
  refine (proj2 (lock_then_cancel sampleWorld 0%N ["A"] "u9" 0%float 100 100
                   _ _ eq_refl eq_refl _ _)).
  - distinct.
  - discriminate.
  - distinct.
  - each_seat. split; [reflexivity|]. unfold seat_ok. simpl. auto.
Defined.

(** ** Lazy and eager expiry agree *)

Lemma sweepWorld_seats t w :
  sweepWorld t w
  = withSeats w (map (fun d => if expiredFilter t d then releaseUpdate d else d)
                     (seats w)).
Proof.
  unfold sweepWorld. rewrite cleanupExpiredLocks_sweep. simpl.
  now rewrite sweep_snd.
Qed.

Lemma map_unique (g : Seat -> Seat) coll :
  keeps_key g -> unique_index coll -> unique_index (map g coll).
Proof.
  intros K U. unfold unique_index. rewrite map_map.
  now rewrite (map_ext _ keyOf K).
Qed.

Lemma expiredFilter_mono t now d :
  t <= now -> expiredFilter t d = true -> expiredFilter now d = true.
Proof.
  intros Ht E. apply expiredFilter_stale in E. apply expiredFilter_stale.
  destruct E as [L [x [Ex Hx]]]. split; [assumption|]. exists x. split; [assumption|lia].
Qed.

Lemma lockCond_swept t now d :
  t <= now ->
  lockCond now (if expiredFilter t d then releaseUpdate d else d)
  = lockCond now d.
Proof.
  intros Ht. destruct (expiredFilter t d) eqn:E; [|reflexivity].
  apply (expiredFilter_mono t now d Ht) in E.
  unfold lockCond. fold (expiredFilter now d). rewrite E.
  simpl. now rewrite orb_true_r.
Qed.

Lemma confirmCond_swept t now o d :
  t <= now ->
  confirmCond o now (if expiredFilter t d then releaseUpdate d else d)
  = confirmCond o now d.
Proof.
  intros Ht. destruct (expiredFilter t d) eqn:E; [|reflexivity].
  apply (expiredFilter_mono t now d Ht), expiredFilter_stale in E.
  now rewrite (stale_not_confirmable o now d E).
Qed.

Lemma setEach_lock_swept t e sns o x tx :
  t < x ->
  setEach e sns (lockUpdate o x)
          (map (fun d => if expiredFilter t d then releaseUpdate d else d) tx)
  = map (fun d => if expiredFilter t d then releaseUpdate d else d)
        (setEach e sns (lockUpdate o x) tx).
Proof.
  intros Hx. unfold setEach. rewrite !map_map. apply map_ext. intros d.
  rewrite (inBatch_keyOf e sns _ d (sweepDoc_key t d)).
  destruct (inBatch e sns d); [|reflexivity].
  replace (expiredFilter t (lockUpdate o x d)) with false.
  - now destruct (expiredFilter t d).
  - unfold expiredFilter, expires_lte. simpl. symmetry. apply Z.leb_gt. lia.
Qed.

Lemma setEach_book_swept t e sns b tx :
  setEach e sns (bookUpdate b)
          (map (fun d => if expiredFilter t d then releaseUpdate d else d) tx)
  = map (fun d => if expiredFilter t d then releaseUpdate d else d)
        (setEach e sns (bookUpdate b) tx).
Proof.
  unfold setEach. rewrite !map_map. apply map_ext. intros d.
  rewrite (inBatch_keyOf e sns _ d (sweepDoc_key t d)).
  destruct (inBatch e sns d); [|reflexivity].
  replace (expiredFilter t (bookUpdate b d)) with false by reflexivity.
  now destruct (expiredFilter t d).
Qed.

Lemma lockLoop_swept t e o now x sns acc tx :
  unique_index tx -> t <= now -> t < x ->
  lockLoop e o now x sns acc
           (map (fun d => if expiredFilter t d then releaseUpdate d else d) tx)
  = match lockLoop e o now x sns acc tx with
    | inl r => inl r
    | inr (l, tx') =>
        inr (l, map (fun d => if expiredFilter t d then releaseUpdate d else d) tx')
    end.
Proof.
  intros U Ht Hx. revert acc tx U.
  induction sns as [|a sns IH]; intros acc tx U; simpl; [reflexivity|].
  rewrite !lock_step by (auto using map_unique, sweepDoc_key).
  rewrite seatAt_map by apply sweepDoc_key.
  destruct (seatAt e a tx) as [d|]; [|reflexivity]. simpl.
  rewrite lockCond_swept by assumption.
  destruct (lockCond now d); [|reflexivity].
  rewrite setEach_lock_swept by assumption.
  apply IH. apply setEach_unique; auto with seats.
Qed.

Lemma confirmCheck_swept t e o now sns acc tx :
  unique_index tx -> t <= now ->
  confirmCheck e o now sns acc
               (map (fun d => if expiredFilter t d then releaseUpdate d else d) tx)
  = confirmCheck e o now sns acc tx.
Proof.
  intros U Ht. revert acc.
  induction sns as [|a sns IH]; intros acc; simpl; [reflexivity|].
  rewrite !confirm_step by (auto using map_unique, sweepDoc_key).
  rewrite seatAt_map by apply sweepDoc_key.
  destruct (seatAt e a tx) as [d|]; [|reflexivity]. simpl.
  rewrite confirmCond_swept by assumption.
  destruct (confirmCond o now d) eqn:C; [|reflexivity].
  destruct (expiredFilter t d) eqn:E; [|apply IH].
  apply (expiredFilter_mono t now d Ht), expiredFilter_stale in E.
  rewrite (stale_not_confirmable o now d E) in C. discriminate.
Qed.

(** X8. For acquire, a sweep changes nothing.  An acquire at [now] on the
    store swept at an earlier or the same time [t] gets the answer it gets
    on the unswept store, and leaves the store the sweep makes of the one it
    leaves there: the sweep and the acquire commute, provided the expiry
    that the acquire stamps, when it is a valid Date, is after [t].  (An
    expiry stamped at or before [t], as a ttl under a millisecond gives at
    [t = now], would be swept at once.) *)
Theorem sweep_then_lock w t e seatNumbers ownerId ttl now :
  unique_index (seats w) -> t <= now ->
  (forall expiresAt, lockExpiry now ttl = Some expiresAt -> t < expiresAt) ->
  lock e seatNumbers ownerId ttl now (sweepWorld t w)
  = (fst (lock e seatNumbers ownerId ttl now w),
     sweepWorld t (snd (lock e seatNumbers ownerId ttl now w))).
Proof.
  intros U Ht Hx. rewrite !sweepWorld_seats. unfold lock.
  destruct (isEmpty seatNumbers); [reflexivity|].
  destruct (negb (truthy ownerId)); [reflexivity|]. simpl.
  destruct (lockExpiry now ttl) as [x|]; [|reflexivity].
  rewrite lockLoop_swept by auto.
  now destruct (lockLoop _ _ _ _ _ _ _) as [r|[l tx]].
Qed.

Lemma sweep_then_lock_witness :
  lock 0%N ["B"] "u9" 60%float 100 (sweepWorld 70 sampleWorld)
  = (fst (lock 0%N ["B"] "u9" 60%float 100 sampleWorld),
     sweepWorld 70 (snd (lock 0%N ["B"] "u9" 60%float 100 sampleWorld))).
Proof.
  apply (sweep_then_lock sampleWorld 70 0%N ["B"] "u9" 60%float 100).
  - distinct.
  - lia.
  - intros x H. change (Some 60100 = Some x) in H. injection H as <-. lia.
Defined.

(** X9. For confirm, a sweep changes nothing either: a confirm at [now] on
    the store swept at [t <= now] gets the answer it gets on the unswept
    store, and the two orders leave the same store.  Confirm re-checks the
    expiry itself and does not depend on the sweep having run. *)
Theorem sweep_then_confirm w t e seatNumbers ownerId now stamp :
  unique_index (seats w) -> t <= now ->
  confirm e seatNumbers ownerId now stamp (sweepWorld t w)
  = (fst (confirm e seatNumbers ownerId now stamp w),
     sweepWorld t (snd (confirm e seatNumbers ownerId now stamp w))).
Proof.
  intros U Ht. rewrite !sweepWorld_seats. unfold confirm.
  destruct (isEmpty seatNumbers); [reflexivity|].
  destruct (negb (truthy ownerId)); [reflexivity|]. simpl.
  rewrite confirmCheck_swept by assumption.
  destruct (confirmCheck _ _ _ _ _ _) as [r|found]; [reflexivity|].
  simpl. unfold withSeats. simpl.
  rewrite !bookLoop_setEach by (auto using map_unique, sweepDoc_key).
  now rewrite setEach_book_swept.
Qed.

Lemma sweep_then_confirm_witness :
  confirm 0%N ["C"] "u2" 100 101 (sweepWorld 70 sampleWorld)
  = (fst (confirm 0%N ["C"] "u2" 100 101 sampleWorld),
     sweepWorld 70 (snd (confirm 0%N ["C"] "u2" 100 101 sampleWorld))).
Proof.
  apply (sweep_then_confirm sampleWorld 70 0%N ["C"] "u2" 100 101).
  - distinct.
  - lia.
Defined.

Lemma sweep_count t coll :
  fst (sweep t coll) = List.length (filter (expiredFilter t) coll).
Proof.
  apply updateMany_count. intros d _. apply releaseUpdate_changes.
Qed.

(** X10. Sweeps compose.  A sweep at [t1] followed by one at a later or
    equal [t2] leaves the store of a single sweep at [t2], and the two
    counts add up to the count of that single sweep: no lock is released
    twice and none is missed. *)
Theorem sweep_sweep w t1 t2 :
  t1 <= t2 ->
  sweepWorld t2 (sweepWorld t1 w) = sweepWorld t2 w
  /\ (fst (sweep t1 (seats w))
      + fst (sweep t2 (seats (sweepWorld t1 w))))%nat
     = fst (sweep t2 (seats w)).
Proof.
  intros Ht. rewrite !sweepWorld_seats. split.
  - unfold withSeats. simpl. f_equal. rewrite map_map. apply map_ext.
    intros d. destruct (expiredFilter t1 d) eqn:E1.
    + rewrite (expiredFilter_mono t1 t2 d Ht E1). reflexivity.
    + reflexivity.
  - rewrite !sweep_count. simpl.
    induction (seats w) as [|d rest IH]; simpl; [reflexivity|].
    destruct (expiredFilter t1 d) eqn:E1.
    + rewrite (expiredFilter_mono t1 t2 d Ht E1).
      replace (expiredFilter t2 (releaseUpdate d)) with false by reflexivity.
      simpl. now rewrite IH.
    + destruct (expiredFilter t2 d); simpl; rewrite <- IH; lia.
Qed.

Lemma sweep_sweep_witness :
  sweepWorld 600 (sweepWorld 100 sampleWorld) = sweepWorld 600 sampleWorld
  /\ (fst (sweep 100 (seats sampleWorld))
      + fst (sweep 600 (seats (sweepWorld 100 sampleWorld))))%nat
     = fst (sweep 600 (seats sampleWorld)).
Proof.
  apply (sweep_sweep sampleWorld 100 600). lia.
Defined.

(** ** Bookings and their seats *)

Lemma createEvent_bookings name md sns w :
  bookings (snd (createEvent name md sns w)) = bookings w.
Proof.
  unfold createEvent. destruct (negb (truthy name)); [reflexivity|].
  destruct (isEmpty _); [reflexivity|].
  now destruct (insertMany _ _) as [[err|] coll].
Qed.

(** A seat that fails what a committed batch required of its seats was not
    in the batch. *)
Lemma seatAt_setEach_excluded (P : Seat -> Prop) e s d e' sns u coll :
  keeps_key u -> seatAt e s coll = Some d -> ~ P d ->
  eachSeat P e' sns coll ->
  seatAt e s (setEach e' sns u coll) = Some d.
Proof.
  intros K Hs NP A. rewrite seatAt_setEach_other; auto.
  destruct (N.eq_dec e e') as [<-|Ne]; [right|now left].
  intros Hin. destruct (A s Hin) as [d' [Hd' Pd']]. congruence.
Qed.

Lemma booked_not_acquirable now d : status d = booked -> ~ acquirable now d.
Proof. intros B. apply unavailable_not_acquirable. now left. Qed.

Lemma booked_not_confirmable o now d : status d = booked -> ~ confirmable o now d.
Proof. intros B [[L _] _]. congruence. Qed.

Lemma booked_not_heldBy o d : status d = booked -> ~ heldBy o d.
Proof. intros B [L _]. congruence. Qed.

(** No request unbooks or rebooks a booked seat, confirm and seat creation
    included. *)
Lemma handle_keeps_booked_seat w r e s d :
  unique_index (seats w) -> seatAt e s (seats w) = Some d ->
  status d = booked -> seatAt e s (seats (handle w r)) = Some d.
Proof.
  intros U Hs B.
  destruct r as [name md sns | e' sns o' ttl now | e' sns o' now stamp
                | e' sns o' | now]; simpl.
  - destruct (createEvent_appends name md sns w) as [added ->].
    now apply seatAt_app.
  - destruct (lock_cases e' sns o' ttl now w)
      as [(l & tx & x' & _ & _ & _ & Hl & ->)|[_ ->]]; [|assumption].
    destruct (lockLoop_inr _ _ _ _ _ _ _ _ _ U Hl) as (_ & -> & A). simpl.
    apply (seatAt_setEach_excluded (acquirable now)); auto with seats.
    now apply booked_not_acquirable.
  - unfold confirm. destruct (isEmpty sns); [assumption|].
    destruct (negb (truthy o')); [assumption|].
    destruct (confirmCheck _ _ _ _ _ _) as [r|found] eqn:H; [assumption|].
    simpl. rewrite bookLoop_setEach by assumption.
    apply (seatAt_setEach_excluded (confirmable o' now)); auto with seats.
    + now apply booked_not_confirmable.
    + exact (confirmCheck_inr _ _ _ _ _ _ _ U H).
  - unfold cancel. destruct (isEmpty sns); [assumption|].
    destruct (negb (truthy o')); [assumption|].
    destruct (cancelLoop _ _ _ _) as [r|tx] eqn:H; [assumption|].
    destruct (cancelLoop_inr _ _ _ _ _ U H) as (_ & A & ->). simpl.
    apply (seatAt_setEach_excluded (heldBy o')); auto with seats.
    now apply booked_not_heldBy.
  - rewrite cleanupExpiredLocks_sweep. simpl.
    rewrite sweep_snd, seatAt_map, Hs by apply sweepDoc_key. simpl.
    now rewrite expiredFilter_booked.
Qed.

Lemma confirm_cases e sns o now stamp w :
  (exists found,
      isEmpty sns = false /\ truthy o = true
      /\ confirmCheck e o now sns [] (seats w) = inr found
      /\ confirm e sns o now stamp w
         = (mkResponse 201 (BookingBody (mkBooking (nextId w) e o sns stamp)),
            mkWorld (bookLoop e (nextId w) sns (seats w))
                    (bookings w ++ [mkBooking (nextId w) e o sns stamp])
                    (events w) (N.succ (nextId w))))
  \/ ((code (fst (confirm e sns o now stamp w)) = 400
       \/ code (fst (confirm e sns o now stamp w)) = 409)
      /\ snd (confirm e sns o now stamp w) = w).
Proof.
  unfold confirm. destruct (isEmpty sns); [right; simpl; auto|].
  destruct (truthy o); simpl; [|right; simpl; auto].
  destruct (confirmCheck _ _ _ _ _ _) as [r|found] eqn:H.
  - right. simpl. split; [|reflexivity]. right.
    exact (confirmCheck_inl_code _ _ _ _ _ _ _ H).
  - left. exists found. auto.
Qed.

(** Bookings are only ever appended, and only by a confirm answered 201. *)
Lemma handle_bookings w r :
  bookings (handle w r) = bookings w
  \/ exists e sns o now stamp,
       r = Confirm e sns o now stamp
       /\ code (fst (confirm e sns o now stamp w)) = 201
       /\ bookings (handle w r)
          = bookings w ++ [mkBooking (nextId w) e o sns stamp].
Proof.
  destruct r as [name md sns | e' sns o' ttl now | e' sns o' now stamp
                | e' sns o' | now]; simpl.
  - left. apply createEvent_bookings.
  - left. unfold lock. destruct (isEmpty sns); [reflexivity|].
    destruct (negb (truthy o')); [reflexivity|].
    destruct (lockExpiry now ttl) as [x|]; [|reflexivity].
    now destruct (lockLoop _ _ _ _ _ _ _) as [r|[l tx]].
  - destruct (confirm_cases e' sns o' now stamp w)
      as [(found & _ & _ & _ & E)|[_ E]].
    + right. exists e', sns, o', now, stamp. rewrite E. simpl. auto.
    + left. now rewrite E.
  - left. unfold cancel. destruct (isEmpty sns); [reflexivity|].
    destruct (negb (truthy o')); [reflexivity|].
    now destruct (cancelLoop _ _ _ _) as [r|tx].
  - left. now rewrite cleanupExpiredLocks_sweep.
Qed.

Lemma insertOrdered_prefix docs coll :
  exists pre post,
    docs = pre ++ post /\ snd (insertOrdered docs coll) = coll ++ pre.
Proof.
  revert coll. induction docs as [|d docs IH]; intros coll; simpl.
  - exists [], []. split; [reflexivity|]. simpl. now rewrite app_nil_r.
  - destruct (findOne _ coll).
    + exists [], (d :: docs). split; [reflexivity|]. simpl.
      now rewrite app_nil_r.
    + destruct (IH (coll ++ [d])) as (pre & post & -> & E).
      exists (d :: pre), post. split; [reflexivity|].
      now rewrite E, <- app_assoc.
Qed.

(** The seats a creation adds are fresh seats of the new event. *)
Lemma createEvent_adds name md sns w :
  exists added,
    seats (snd (createEvent name md sns w)) = seats w ++ added
    /\ forall d, In d added -> exists sn, In sn sns /\ d = newSeat (nextId w) sn.
Proof.
  unfold createEvent. destruct (negb (truthy name)).
  { exists []. rewrite app_nil_r. split; [reflexivity|intros ? []]. }
  destruct (isEmpty _).
  { exists []. rewrite app_nil_r. split; [reflexivity|intros ? []]. }
  unfold insertMany. destruct (forallb _ _).
  - destruct (insertOrdered_prefix
                (map (fun sn => newSeat (nextId w) sn) sns) (seats w))
      as (pre & post & Hd & E).
    simpl in *. exists pre. split.
    + destruct (insertOrdered _ _) as [[err|] coll]; simpl in *; exact E.
    + intros d Hin.
      assert (H : In d (map (fun sn => newSeat (nextId w) sn) sns))
        by (rewrite Hd; apply in_or_app; now left).
      apply in_map_iff in H. destruct H as [sn [<- Hsn]]. now exists sn.
  - exists []. simpl. rewrite app_nil_r. split; [reflexivity|intros ? []].
Qed.

(** The seats a confirm answered 201 has booked. *)
Lemma confirm_books e o now sns found bid tx :
  unique_index tx -> confirmCheck e o now sns [] tx = inr found ->
  forall sn, In sn sns ->
    seatAt e sn (bookLoop e bid sns tx)
    = Some (mkSeat e sn booked None None (Some bid)).
Proof.
  intros U H sn Hin.
  destruct (confirmCheck_inr _ _ _ _ _ _ _ U H sn Hin) as [d [Hd _]].
  rewrite bookLoop_setEach by assumption.
  rewrite (seatAt_setEach_in e sn sns _ _ d) by auto with seats.
  destruct (seatAt_In _ _ _ _ Hd) as [_ K].
  now rewrite (bookUpdate_seat e sn bid d K).
Qed.

Lemma handle_bookings_hold w r :
  unique_index (seats w) -> bookings_hold w -> bookings_hold (handle w r).
Proof.
  intros U H bk sn Hbk Hsn.
  destruct (handle_bookings w r)
    as [E|(e & sns & o & now & stamp & -> & Hc & E)]; rewrite E in Hbk.
  - apply handle_keeps_booked_seat; auto.
  - apply in_app_or in Hbk. destruct Hbk as [Hbk|[<-|[]]].
    + apply handle_keeps_booked_seat; auto.
    + simpl in *.
      destruct (confirm_cases e sns o now stamp w)
        as [(found & _ & _ & Hf & ->)|[[X|X] _]];
        [|rewrite X in Hc; discriminate..].
      simpl. exact (confirm_books e o now sns found (nextId w) (seats w)
                      U Hf sn Hsn).
Qed.

Lemma handle_booked_have_booking w r :
  unique_index (seats w) -> booked_have_booking w ->
  booked_have_booking (handle w r).
Proof.
  intros U H d' Hd' B.
  assert (Old : In d' (seats w) ->
                exists bk, In bk (bookings (handle w r))
                  /\ bookingId d' = Some (b_id bk)
                  /\ b_eventId bk = eventId d' /\ In (seatNumber d') (b_seats bk)).
  { intros Hin. destruct (H d' Hin B) as (bk & Hbk & R).
    exists bk. split; [|exact R].
    destruct (handle_bookings w r) as [E|(e & sns & o & now & stamp & _ & _ & E)];
      rewrite E; [assumption|]. apply in_or_app. now left. }
  destruct r as [name md sns | e' sns o' ttl now | e' sns o' now stamp
                | e' sns o' | now]; simpl in Hd'.
  - destruct (createEvent_adds name md sns w) as (added & E & New).
    rewrite E in Hd'. apply in_app_or in Hd'. destruct Hd' as [Hin|Hin]; auto.
    destruct (New d' Hin) as (sn & _ & ->). discriminate.
  - destruct (lock_cases e' sns o' ttl now w)
      as [(l & tx & x' & _ & _ & _ & Hl & E)|[_ E]]; rewrite E in Hd'; auto.
    destruct (lockLoop_inr _ _ _ _ _ _ _ _ _ U Hl) as (_ & -> & _).
    simpl in Hd'. apply in_map_iff in Hd'. destruct Hd' as (d & <- & Hin).
    destruct (inBatch e' sns d); [discriminate|auto].
  - destruct (confirm_cases e' sns o' now stamp w)
      as [(found & _ & _ & Hf & E)|[_ E]]; [|rewrite E in Hd'; auto].
    rewrite E in Hd'. simpl in Hd'.
    rewrite bookLoop_setEach in Hd' by assumption.
    apply in_map_iff in Hd'. destruct Hd' as (d & <- & Hin).
    destruct (inBatch e' sns d) eqn:I; [|auto].
    apply inBatch_spec in I. destruct I as [Ie Is].
    exists (mkBooking (nextId w) e' o' sns stamp). simpl. rewrite E. simpl.
    repeat split; auto. apply in_or_app. right. now left.
  - unfold cancel in Hd'. destruct (isEmpty sns); auto.
    destruct (negb (truthy o')); auto.
    destruct (cancelLoop _ _ _ _) as [r|tx] eqn:Hl; auto.
    destruct (cancelLoop_inr _ _ _ _ _ U Hl) as (_ & _ & ->).
    simpl in Hd'. apply in_map_iff in Hd'. destruct Hd' as (d & <- & Hin).
    destruct (inBatch e' sns d); [discriminate|auto].
  - rewrite cleanupExpiredLocks_sweep in Hd'. simpl in Hd'.
    rewrite sweep_snd in Hd'. apply in_map_iff in Hd'.
    destruct Hd' as (d & <- & Hin).
    destruct (expiredFilter now d); [discriminate|auto].
Qed.

(** X11. Bookings and seats agree, in both directions, and every request
    keeps it so: each booking of the store has every seat it lists marked
    booked under its id, with owner and expiry cleared, and each booked
    seat is listed by a booking of the store under the seat's [bookingId].
    It holds in particular of every store reached from the empty
    database. *)
Theorem booking_integrity w rs :
  unique_index (seats w) -> bookings_hold w -> booked_have_booking w ->
  bookings_hold (run w rs) /\ booked_have_booking (run w rs).
Proof.
  unfold run. revert w. induction rs as [|r rs IH]; intros w U H1 H2; simpl.
  - auto.
  - apply IH.
    + now apply handle_unique.
    + now apply handle_bookings_hold.
    + now apply handle_booked_have_booking.
Qed.

Lemma booking_integrity_witness :
  bookings_hold
    (run emptyWorld [CreateEvent "E" "" ["A1"; "A2"];
                     Lock 0%N ["A1"; "A2"] "u1" 60%float 100;
                     Confirm 0%N ["A1"; "A2"] "u1" 200 201; Sweep 100000;
                     Lock 0%N ["A1"] "u2" 60%float 100000])
  /\ booked_have_booking
       (run emptyWorld [CreateEvent "E" "" ["A1"; "A2"];
                        Lock 0%N ["A1"; "A2"] "u1" 60%float 100;
                        Confirm 0%N ["A1"; "A2"] "u1" 200 201; Sweep 100000;
                        Lock 0%N ["A1"] "u2" 60%float 100000]).
Proof.
  apply (booking_integrity emptyWorld).
  - constructor.
  - intros bk sn [].
  - intros d [].
Defined.

Lemma run_bookings_hold w rs :
  unique_index (seats w) -> bookings_hold w -> bookings_hold (run w rs).
Proof.
  unfold run. revert w. induction rs as [|r rs IH]; intros w U H; simpl.
  - assumption.
  - apply IH; [now apply handle_unique|now apply handle_bookings_hold].
Qed.

Lemma run_bookings_app w rs :
  exists more, bookings (run w rs) = bookings w ++ more.
Proof.
  unfold run. revert w. induction rs as [|r rs IH]; intros w; simpl.
  - exists []. now rewrite app_nil_r.
  - destruct (IH (handle w r)) as [more ->].
    destruct (handle_bookings w r)
      as [->|(e & sns & o & now & stamp & _ & _ & ->)].
    + now exists more.
    + rewrite <- app_assoc. eexists. reflexivity.
Qed.

Lemma cancel_cases e sns o w :
  (exists tx,
      isEmpty sns = false /\ truthy o = true
      /\ cancelLoop e o sns (seats w) = inr tx
      /\ cancel e sns o w
         = (mkResponse 200 (CancelledBody sns), withSeats w tx))
  \/ (code (fst (cancel e sns o w)) <> 200 /\ snd (cancel e sns o w) = w).
Proof.
  unfold cancel. destruct (isEmpty sns); [right; simpl; split; [discriminate|reflexivity]|].
  destruct (truthy o); simpl; [|right; simpl; split; [discriminate|reflexivity]].
  destruct (cancelLoop _ _ _ _) as [r|tx] eqn:H.
  - right. simpl. split; [|reflexivity].
    destruct (cancelLoop_inl_code _ _ _ _ _ H) as [E|E]; rewrite E; discriminate.
  - left. exists tx. auto.
Qed.

(** X12. A booking is permanent.  Whatever requests follow, the booking
    stays in the store and each seat it lists stays booked under it; and
    from then on no acquire, confirm or release whose batch holds one of its
    seats is answered with success, each leaving the store as it finds
    it. *)
Theorem booking_permanent w rs bk sn :
  unique_index (seats w) -> bookings_hold w ->
  In bk (bookings w) -> In sn (b_seats bk) ->
  let w' := run w rs in
  In bk (bookings w')
  /\ seatAt (b_eventId bk) sn (seats w') = Some (bookedUnder bk sn)
  /\ (forall sns o ttl now, In sn sns ->
        code (fst (lock (b_eventId bk) sns o ttl now w')) <> 200
        /\ snd (lock (b_eventId bk) sns o ttl now w') = w')
  /\ (forall sns o now stamp, In sn sns ->
        code (fst (confirm (b_eventId bk) sns o now stamp w')) <> 201
        /\ snd (confirm (b_eventId bk) sns o now stamp w') = w')
  /\ (forall sns o, In sn sns ->
        code (fst (cancel (b_eventId bk) sns o w')) <> 200
        /\ snd (cancel (b_eventId bk) sns o w') = w').
Proof.
  intros U H Hbk Hsn w'.
  assert (Hbk' : In bk (bookings w')).
  { subst w'. destruct (run_bookings_app w rs) as [more ->].
    apply in_or_app. now left. }
  assert (U' : unique_index (seats w')) by now apply run_unique.
  assert (Hs : seatAt (b_eventId bk) sn (seats w') = Some (bookedUnder bk sn))
    by (apply (run_bookings_hold w rs U H); assumption).
  clearbody w'. split; [assumption|]. split; [assumption|].
  split; [|split].
  - intros sns o ttl now Hin.
    destruct (lock_cases (b_eventId bk) sns o ttl now w')
      as [(l & tx & x' & _ & _ & _ & Hl & _)|[Hc Hw]].
    + exfalso. destruct (lockLoop_inr _ _ _ _ _ _ _ _ _ U' Hl) as (_ & _ & A).
      destruct (A sn Hin) as [d [Hd Ad]]. rewrite Hs in Hd. injection Hd as <-.
      now apply (booked_not_acquirable now (bookedUnder bk sn)).
    + split; [|assumption]. now apply lock_not_200.
  - intros sns o now stamp Hin.
    destruct (confirm_cases (b_eventId bk) sns o now stamp w')
      as [(found & _ & _ & Hf & _)|[Hc Hw]].
    + exfalso.
      destruct (confirmCheck_inr _ _ _ _ _ _ _ U' Hf sn Hin) as [d [Hd Cd]].
      rewrite Hs in Hd. injection Hd as <-.
      now apply (booked_not_confirmable o now (bookedUnder bk sn)).
    + split; [|assumption]. destruct Hc as [E|E]; rewrite E; discriminate.
  - intros sns o Hin.
    destruct (cancel_cases (b_eventId bk) sns o w')
      as [(tx & _ & _ & Hl & _)|[Hc Hw]]; [|auto].
    exfalso. destruct (cancelLoop_inr _ _ _ _ _ U' Hl) as (_ & A & _).
    destruct (A sn Hin) as [d [Hd Cd]]. rewrite Hs in Hd. injection Hd as <-.
    now apply (booked_not_heldBy o (bookedUnder bk sn)).
Qed.

Lemma booking_permanent_witness :
  seatAt 0%N "C"
    (seats (run (snd (confirm 0%N ["C"] "u2" 100 101
                        (withSeats sampleWorld [seatA; seatB_stale; seatC_held])))
                [Sweep 1000; Lock 0%N ["C"] "u1" 60%float 1000;
                 Cancel 0%N ["C"] "u2"; CreateEvent "F" "" ["C"]]))
  = Some (mkSeat 0%N "C" booked None None (Some 8%N)).
Proof.
  refine (proj1 (proj2 (booking_permanent
            (snd (confirm 0%N ["C"] "u2" 100 101
                    (withSeats sampleWorld [seatA; seatB_stale; seatC_held])))
            [Sweep 1000; Lock 0%N ["C"] "u1" 60%float 1000; Cancel 0%N ["C"] "u2";
             CreateEvent "F" "" ["C"]]
            (mkBooking 8%N 0%N "u2" ["C"] 101) "C" _ _ _ _))).
  - distinct.
  - intros bk sn [<-|[]] [<-|[]]. reflexivity.
  - simpl. auto.
  - simpl. auto.
Defined.

(** X13. Bookings are append-only.  No request removes or alters a
    booking: after any run the bookings it found are still there, in place,
    followed by the new ones; and the only request that adds one is a
    confirm answered 201, which adds exactly one, listing its batch. *)
Theorem bookings_append_only w :
  (forall rs, exists more, bookings (run w rs) = bookings w ++ more)
  /\ (forall r,
        bookings (handle w r) = bookings w
        \/ exists e sns o now stamp,
             r = Confirm e sns o now stamp
             /\ code (fst (confirm e sns o now stamp w)) = 201
             /\ bookings (handle w r)
                = bookings w ++ [mkBooking (nextId w) e o sns stamp]).
Proof.
  split; [apply run_bookings_app|apply handle_bookings].
Qed.

Lemma handle_keys w r :
  isCreateEvent r = false -> map keyOf (seats (handle w r)) = map keyOf (seats w).
Proof.
  destruct r as [name md sns | e sns o ttl now | e sns o now stamp
                | e sns o | now]; simpl; [discriminate|intros _..].
  - destruct (lock_cases e sns o ttl now w)
      as [(l & tx & x' & _ & _ & _ & Hl & ->)|[_ ->]]; [|reflexivity].
    exact (lockLoop_keys _ _ _ _ _ _ _ _ _ Hl).
  - destruct (confirm_cases e sns o now stamp w)
      as [(found & _ & _ & _ & ->)|[_ ->]]; [|reflexivity].
    apply bookLoop_keys.
  - destruct (cancel_cases e sns o w)
      as [(tx & _ & _ & Hl & ->)|[_ ->]]; [|reflexivity].
    exact (cancelLoop_keys _ _ _ _ _ Hl).
  - rewrite cleanupExpiredLocks_sweep. apply sweep_keys.
Qed.

(** X14. The seats are fixed by their creation.  Acquire, confirm, release
    and sweep never add, remove, reorder or re-key a seat: after any run of
    them the collection holds the same (eventId, seatNumber) keys in the
    same places.  With seat creation in the run as well, the keys stay
    pairwise distinct, as the unique index demands. *)
Theorem seat_keys_stable w rs :
  (forallb (fun r => negb (isCreateEvent r)) rs = true ->
   map keyOf (seats (run w rs)) = map keyOf (seats w))
  /\ (unique_index (seats w) -> unique_index (seats (run w rs))).
Proof.
  split; [|apply run_unique].
  unfold run. revert w. induction rs as [|r rs IH]; intros w H; simpl in *.
  - reflexivity.
  - apply andb_true_iff in H. destruct H as [Hr Hrs].
    rewrite IH by assumption. apply handle_keys.
    now apply negb_true_iff in Hr.
Qed.

Lemma seat_keys_stable_witness :
  map keyOf
      (seats (run sampleWorld
                [Lock 0%N ["A"; "B"] "u9" 60%float 100; Sweep 100000;
                 Confirm 0%N ["C"] "u2" 100 101; Cancel 0%N ["A"] "u9"]))
  = [(0%N, "A"); (0%N, "B"); (0%N, "C"); (0%N, "D")].
Proof.
  exact (proj1 (seat_keys_stable sampleWorld
                  [Lock 0%N ["A"; "B"] "u9" 60%float 100; Sweep 100000;
                   Confirm 0%N ["C"] "u2" 100 101; Cancel 0%N ["A"] "u9"])
               eq_refl).
Defined.

(** ** POST /events *)

Lemma findOne_app {Doc : Type} (f : Doc -> bool) (a b : list Doc) :
  findOne f (a ++ b)
  = match findOne f a with Some d => Some d | None => findOne f b end.
Proof.
  induction a as [|x a IH]; simpl; [reflexivity|]. now destruct (f x).
Qed.

(** Seats in of distinct numbers, none of them in the collection, all go
    in. *)
Lemma insertOrdered_app e pre rest coll :
  NoDup pre -> (forall sn, In sn pre -> seatAt e sn coll = None) ->
  insertOrdered (map (newSeat e) pre ++ rest) coll
  = insertOrdered rest (coll ++ map (newSeat e) pre).
Proof.
  revert coll. induction pre as [|p pre IH]; intros coll ND Free; simpl.
  - now rewrite app_nil_r.
  - inversion ND as [|? ? Hout ND']; subst.
    pose proof (Free p (or_introl eq_refl)) as Hp. unfold seatAt in Hp.
    rewrite Hp. rewrite IH.
    + now rewrite <- app_assoc.
    + assumption.
    + intros sn Hin. unfold seatAt. rewrite findOne_app.
      pose proof (Free sn (or_intror Hin)) as Hsn. unfold seatAt in Hsn.
      rewrite Hsn. simpl.
      destruct (seatKey e sn (newSeat e p)) eqn:K; [|reflexivity].
      apply seatKey_spec in K. injection K as ->. contradiction.
Qed.

Lemma seatAt_newSeats e sn sns :
  In sn sns -> seatAt e sn (map (newSeat e) sns) = Some (newSeat e sn).
Proof.
  unfold seatAt. induction sns as [|a sns IH]; simpl; [intros []|].
  intros Hin. destruct (seatKey e sn (newSeat e a)) eqn:K.
  - apply seatKey_spec in K. now injection K as ->.
  - destruct Hin as [->|Hin]; [|auto].
    assert (T : seatKey e sn (newSeat e sn) = true) by now apply seatKey_spec.
    congruence.
Qed.

Lemma fresh_event_free w sn : fresh_event w -> seatAt (nextId w) sn (seats w) = None.
Proof.
  intros F. apply findOne_None. intros d Hd.
  destruct (seatKey (nextId w) sn d) eqn:K; [|reflexivity].
  apply seatKey_spec in K. injection K as K _. now destruct (F d Hd).
Qed.

Lemma forallb_newSeats e sns :
  forallb (fun d => truthy (seatNumber d)) (map (newSeat e) sns)
  = forallb truthy sns.
Proof. induction sns as [|a sns IH]; simpl; [reflexivity|now rewrite IH]. Qed.

Lemma isEmpty_map {A B : Type} (f : A -> B) l : isEmpty (map f l) = isEmpty l.
Proof. now destruct l. Qed.

(** X15. Creating an event with distinct, non-empty seat numbers is answered
    201: the event takes the next id, and one available seat per number,
    without owner, expiry or booking, is appended to the collection in the
    order given, every earlier seat, booking and event staying as it is.
    Each new seat is then found under its (event, number) key. *)
Theorem createEvent_ok w name metadata seatNumbers :
  truthy name = true -> NoDup seatNumbers ->
  forallb truthy seatNumbers = true -> fresh_event w ->
  let event := mkEvent (nextId w) name metadata in
  let newSeats := map (newSeat (nextId w)) seatNumbers in
  createEvent name metadata seatNumbers w
  = (mkResponse 201 (EventBody event),
     mkWorld (seats w ++ newSeats) (bookings w) (events w ++ [event])
             (N.succ (nextId w)))
  /\ (forall sn, In sn seatNumbers ->
        seatAt (nextId w) sn (seats w ++ newSeats)
        = Some (newSeat (nextId w) sn))
  /\ (forall e sn d, seatAt e sn (seats w) = Some d ->
        seatAt e sn (seats w ++ newSeats) = Some d).
Proof.
  intros Hn ND Hv F event newSeats. split; [|split].
  - unfold createEvent. rewrite Hn. simpl.
    change (map (fun sn => newSeat (nextId w) sn) seatNumbers) with newSeats.
    subst newSeats. rewrite isEmpty_map.
    destruct seatNumbers as [|a sns] eqn:E; [simpl; now rewrite app_nil_r|].
    rewrite <- E in *. replace (isEmpty seatNumbers) with false by now rewrite E.
    unfold insertMany. rewrite forallb_newSeats, Hv.
    rewrite <- (app_nil_r (map (newSeat (nextId w)) seatNumbers)) at 1.
    rewrite insertOrdered_app; [reflexivity|assumption|].
    intros sn _. now apply fresh_event_free.
  - intros sn Hin. unfold seatAt. rewrite findOne_app.
    fold (seatAt (nextId w) sn (seats w)). rewrite fresh_event_free by assumption.
    now apply seatAt_newSeats.
  - intros e sn d. apply seatAt_app.
Qed.

Lemma createEvent_ok_witness :
  createEvent "F" "" ["A"; "B"] sampleWorld
  = (mkResponse 201 (EventBody (mkEvent 8%N "F" "")),
     mkWorld [seatA; seatB_stale; seatC_held; seatD_booked;
              newSeat 8%N "A"; newSeat 8%N "B"]
             [] [mkEvent 0%N "E" ""; mkEvent 8%N "F" ""] 9%N).
Proof.
  refine (proj1 (createEvent_ok sampleWorld "F" "" ["A"; "B"] eq_refl _ eq_refl _)).
  - distinct.
  - intros d Hd. simpl in Hd.
    repeat (destruct Hd as [<-|Hd]; [discriminate|]). destruct Hd.
Defined.

(** X16. Event creation is not atomic.  When the seat numbers repeat one,
    the request is answered 500 (duplicate key), but the event has been
    created and the seats before the first repetition have been inserted
    and stay so. *)
Theorem createEvent_duplicate w name metadata pre s post :
  truthy name = true -> forallb truthy (pre ++ s :: post) = true ->
  NoDup pre -> In s pre -> fresh_event w ->
  createEvent name metadata (pre ++ s :: post) w
  = (mkResponse 500 (StoreErrorBody DuplicateKey),
     mkWorld (seats w ++ map (newSeat (nextId w)) pre) (bookings w)
             (events w ++ [mkEvent (nextId w) name metadata])
             (N.succ (nextId w))).
Proof.
  intros Hn Hv ND Hin F. unfold createEvent. rewrite Hn. simpl.
  change (map (fun sn => newSeat (nextId w) sn) (pre ++ s :: post))
    with (map (newSeat (nextId w)) (pre ++ s :: post)).
  rewrite isEmpty_map.
  replace (isEmpty (pre ++ s :: post)) with false by now destruct pre.
  unfold insertMany. rewrite forallb_newSeats, Hv.
  rewrite map_app. rewrite insertOrdered_app;
    [|assumption|intros sn _; now apply fresh_event_free].
  simpl.
  assert (Hit : seatAt (nextId w) s (seats w ++ map (newSeat (nextId w)) pre)
                = Some (newSeat (nextId w) s)).
  { unfold seatAt. rewrite findOne_app.
    fold (seatAt (nextId w) s (seats w)). rewrite fresh_event_free by assumption.
    now apply seatAt_newSeats. }
  unfold seatAt in Hit. now rewrite Hit.
Qed.

Lemma createEvent_duplicate_witness :
  createEvent "F" "" ["A"; "B"; "A"; "C"] sampleWorld
  = (mkResponse 500 (StoreErrorBody DuplicateKey),
     mkWorld [seatA; seatB_stale; seatC_held; seatD_booked;
              newSeat 8%N "A"; newSeat 8%N "B"]
             [] [mkEvent 0%N "E" ""; mkEvent 8%N "F" ""] 9%N).
Proof.
  refine (createEvent_duplicate sampleWorld "F" "" ["A"; "B"] "A" ["C"]
            eq_refl eq_refl _ _ _).
  - distinct.
  - simpl. auto.
  - intros d Hd. simpl in Hd.
    repeat (destruct Hd as [<-|Hd]; [discriminate|]). destruct Hd.
Defined.

(** X17. What event creation refuses.  Without a name the request is
    answered 400 and nothing is created.  With a name and an empty string
    among the seat numbers it is answered 500 (validation): no seat at all
    is inserted, not even the valid ones, but the event has been created. *)
Theorem createEvent_refused w name metadata seatNumbers :
  (truthy name = false ->
   createEvent name metadata seatNumbers w
   = (mkResponse 400 (ErrorBody "name required"), w))
  /\ (truthy name = true -> In "" seatNumbers ->
      createEvent name metadata seatNumbers w
      = (mkResponse 500 (StoreErrorBody ValidationFailed),
         mkWorld (seats w) (bookings w)
                 (events w ++ [mkEvent (nextId w) name metadata])
                 (N.succ (nextId w)))).
Proof.
  split.
  - intros Hn. unfold createEvent. now rewrite Hn.
  - intros Hn Hin. unfold createEvent. rewrite Hn. simpl.
    change (map (fun sn => newSeat (nextId w) sn) seatNumbers)
      with (map (newSeat (nextId w)) seatNumbers).
    rewrite isEmpty_map.
    replace (isEmpty seatNumbers) with false
      by (destruct seatNumbers; [destruct Hin|reflexivity]).
    unfold insertMany. rewrite forallb_newSeats.
    replace (forallb truthy seatNumbers) with false; [reflexivity|].
    symmetry. apply not_true_is_false. intros H.
    rewrite forallb_forall in H. specialize (H "" Hin). discriminate.
Qed.

Lemma createEvent_refused_witness :
  createEvent "F" "" ["A"; ""; "B"] sampleWorld
  = (mkResponse 500 (StoreErrorBody ValidationFailed),
     mkWorld (seats sampleWorld) [] [mkEvent 0%N "E" ""; mkEvent 8%N "F" ""] 9%N).
Proof.
  refine (proj2 (createEvent_refused sampleWorld "F" "" ["A"; ""; "B"])
                eq_refl _).
  simpl. auto.
Defined.

(** ** GET /events/:eventId/seats *)

Lemma insertBySeatNumber_perm s l : Permutation (s :: l) (insertBySeatNumber s l).
Proof.
  induction l as [|x l IH]; simpl; [reflexivity|].
  destruct (String.leb (seatNumber s) (seatNumber x)); [reflexivity|].
  rewrite perm_swap. now constructor.
Qed.

Lemma sortBySeatNumber_perm l : Permutation l (sortBySeatNumber l).
Proof.
  induction l as [|x l IH]; simpl; [constructor|].
  rewrite <- insertBySeatNumber_perm. now constructor.
Qed.

Lemma insertBySeatNumber_sorted s l :
  Sorted (fun a b => String.leb (seatNumber a) (seatNumber b) = true) l ->
  Sorted (fun a b => String.leb (seatNumber a) (seatNumber b) = true)
         (insertBySeatNumber s l).
Proof.
  induction 1 as [|x l Sl IH Hd]; simpl; [repeat constructor|].
  destruct (String.leb (seatNumber s) (seatNumber x)) eqn:L.
  - constructor; [now constructor|now constructor].
  - constructor; [assumption|].
    assert (Lx : String.leb (seatNumber x) (seatNumber s) = true).
    { destruct (String.leb_total (seatNumber s) (seatNumber x)); congruence. }
    destruct Hd as [|y l Hxy]; simpl; [now constructor|].
    destruct (String.leb (seatNumber s) (seatNumber y)); now constructor.
Qed.

Lemma sortBySeatNumber_sorted l :
  Sorted (fun a b => String.leb (seatNumber a) (seatNumber b) = true)
         (sortBySeatNumber l).
Proof.
  induction l as [|x l IH]; simpl; [constructor|].
  now apply insertBySeatNumber_sorted.
Qed.

Lemma leb_ltb a b : String.leb a b = true -> a <> b -> String.ltb a b = true.
Proof.
  unfold String.leb, String.ltb. intros L Ne.
  destruct (String.compare a b) eqn:C; try reflexivity; try discriminate.
  apply String.compare_eq_iff in C. contradiction.
Qed.

Lemma sorted_strict l :
  Sorted (fun a b => String.leb (seatNumber a) (seatNumber b) = true) l ->
  NoDup (map seatNumber l) -> Sorted seatNumber_lt l.
Proof.
  induction 1 as [|x l Sl IH Hd]; simpl; intros ND; [constructor|].
  inversion ND as [|? ? Hout ND']; subst.
  constructor; [auto|].
  destruct Hd as [|y l Hxy]; constructor.
  apply leb_ltb; [assumption|]. intros E. apply Hout. simpl. now left.
Qed.

(** Within one event the index makes the seat numbers distinct. *)
Lemma ofEvent_numbers e coll :
  unique_index coll -> NoDup (map seatNumber (find (ofEvent e) coll)).
Proof.
  unfold unique_index, find.
  induction coll as [|x coll IH]; simpl; intros ND; [constructor|].
  inversion ND as [|? ? Hout ND']; subst.
  destruct (ofEvent e x) eqn:Ex; simpl; [|auto].
  constructor; [|auto].
  intros Hin. apply in_map_iff in Hin. destruct Hin as (y & Ey & Hy).
  apply filter_In in Hy. destruct Hy as [Hy Oy].
  apply Hout. apply in_map_iff. exists y. split; [|assumption].
  unfold ofEvent in *. apply N.eqb_eq in Ex, Oy. unfold keyOf. congruence.
Qed.

(** X18. The seat listing of an event is answered 200 with exactly the
    seats of that event, each once, in strictly ascending order of seat
    number; a seat found under a key of the event is in the listing. *)
Theorem listSeats_sorted w e :
  unique_index (seats w) ->
  fst (listSeats e w) = 200
  /\ Permutation (filter (fun d => N.eqb (eventId d) e) (seats w))
                 (snd (listSeats e w))
  /\ Sorted seatNumber_lt (snd (listSeats e w))
  /\ (forall d, In d (snd (listSeats e w)) <-> In d (seats w) /\ eventId d = e)
  /\ (forall sn d, seatAt e sn (seats w) = Some d -> In d (snd (listSeats e w))).
Proof.
  intros U. unfold listSeats. simpl.
  pose proof (sortBySeatNumber_perm (find (ofEvent e) (seats w))) as P.
  assert (M : forall d, In d (sortBySeatNumber (find (ofEvent e) (seats w)))
                        <-> In d (seats w) /\ eventId d = e).
  { intros d. split.
    - intros H. apply (Permutation_in _ (Permutation_sym P)) in H.
      apply filter_In in H. destruct H as [H O]. apply N.eqb_eq in O. auto.
    - intros [H O]. apply (Permutation_in _ P). apply filter_In.
      split; [assumption|]. now apply N.eqb_eq. }
  split; [reflexivity|]. split; [exact P|]. split; [|split; [exact M|]].
  - apply sorted_strict; [apply sortBySeatNumber_sorted|].
    apply (Permutation_NoDup (Permutation_map seatNumber P)).
    now apply ofEvent_numbers.
  - intros sn d H. apply M. destruct (seatAt_In _ _ _ _ H) as [Hin K].
    injection K as K _. auto.
Qed.

Lemma listSeats_sorted_witness :
  snd (listSeats 0%N
         (withSeats sampleWorld
            [seatD_booked; newSeat 1%N "A"; seatB_stale; seatA; seatC_held]))
  = [seatA; seatB_stale; seatC_held; seatD_booked]
  /\ Sorted seatNumber_lt [seatA; seatB_stale; seatC_held; seatD_booked].
Proof.
  split; [reflexivity|].
  refine (proj1 (proj2 (proj2 (listSeats_sorted
            (withSeats sampleWorld
               [seatD_booked; newSeat 1%N "A"; seatB_stale; seatA; seatC_held])
            0%N _)))).
  distinct.
Defined.

(* ------------------------------------------------------------------ *)
(** ** Seats and their events *)

Lemma createEvent_cases name md sns w :
  (truthy name = false /\ snd (createEvent name md sns w) = w)
  \/ (truthy name = true /\ exists added,
        snd (createEvent name md sns w)
        = mkWorld (seats w ++ added) (bookings w)
                  (events w ++ [mkEvent (nextId w) name md])
                  (N.succ (nextId w))
        /\ forall d, In d added -> exists sn, In sn sns /\ d = newSeat (nextId w) sn).
Proof.
  unfold createEvent. destruct (truthy name); simpl; [right|now left].
  split; [reflexivity|].
  destruct (isEmpty _).
  { exists []. simpl. rewrite app_nil_r. split; [reflexivity|intros ? []]. }
  unfold insertMany. destruct (forallb _ _).
  - destruct (insertOrdered_prefix
                (map (fun sn => newSeat (nextId w) sn) sns) (seats w))
      as (pre & post & Hd & E).
    exists pre. split.
    + destruct (insertOrdered _ _) as [[err|] coll]; simpl in *; now rewrite E.
    + intros d Hin.
      assert (H : In d (map (fun sn => newSeat (nextId w) sn) sns))
        by (rewrite Hd; apply in_or_app; now left).
      apply in_map_iff in H. destruct H as [sn [<- Hsn]]. now exists sn.
  - exists []. simpl. rewrite app_nil_r. split; [reflexivity|intros ? []].
Qed.

(** Apart from seat creation, a request leaves the events alone and does
    not take the next id back. *)
Lemma handle_events w r :
  isCreateEvent r = false ->
  events (handle w r) = events w /\ (nextId w <= nextId (handle w r))%N.
Proof.
  destruct r as [name md sns | e sns o ttl now | e sns o now stamp
                | e sns o | now]; simpl; [discriminate|intros _..].
  - destruct (lock_cases e sns o ttl now w)
      as [(l & tx & x' & _ & _ & _ & _ & ->)|[_ ->]]; simpl; split; reflexivity.
  - destruct (confirm_cases e sns o now stamp w)
      as [(found & _ & _ & _ & ->)|[_ ->]]; simpl;
      split; try reflexivity. lia.
  - destruct (cancel_cases e sns o w)
      as [(tx & _ & _ & _ & ->)|[_ ->]]; simpl; split; reflexivity.
  - rewrite cleanupExpiredLocks_sweep. simpl. split; reflexivity.
Qed.

Lemma handle_seats_have_event w r :
  seats_have_event w -> events_below w ->
  seats_have_event (handle w r) /\ events_below (handle w r).
Proof.
  intros S B. destruct (isCreateEvent r) eqn:C.
  - destruct r as [name md sns| | | |]; try discriminate. simpl.
    destruct (createEvent_cases name md sns w)
      as [[_ ->]|[_ (added & -> & New)]]; [auto|]. split.
    + intros d Hd. simpl in *. apply in_app_or in Hd. destruct Hd as [Hd|Hd].
      * destruct (S d Hd) as (ev & Hev & E). exists ev.
        split; [apply in_or_app; now left|assumption].
      * destruct (New d Hd) as (sn & _ & ->).
        exists (mkEvent (nextId w) name md).
        split; [apply in_or_app; right; now left|reflexivity].
    + intros ev Hev. simpl in *. apply in_app_or in Hev.
      destruct Hev as [Hev|[<-|[]]]; [|simpl; lia].
      specialize (B ev Hev). lia.
  - destruct (handle_events w r C) as [Ev Nx].
    pose proof (handle_keys w r C) as K. split.
    + intros d Hd. rewrite Ev.
      assert (Hk : In (keyOf d) (map keyOf (seats w)))
        by (rewrite <- K; now apply in_map).
      apply in_map_iff in Hk. destruct Hk as (d0 & E0 & Hd0).
      destruct (S d0 Hd0) as (ev & Hev & E). exists ev.
      split; [assumption|]. unfold keyOf in E0. congruence.
    + intros ev Hev. rewrite Ev in Hev. specialize (B ev Hev). lia.
Qed.

(** X20. Seats never outlive or precede their event.  Every request keeps:
    each seat of the store belongs to an event of the store, and no seat
    carries the id that the next event will get, so a new event always
    starts with no seat of its own.  It holds of every store reached from
    the empty database. *)
Theorem seats_belong_to_events w rs :
  seats_have_event w -> events_below w ->
  seats_have_event (run w rs) /\ events_below (run w rs)
  /\ fresh_event (run w rs).
Proof.
  intros S B.
  assert (H : seats_have_event (run w rs) /\ events_below (run w rs)).
  { unfold run. revert w S B.
    induction rs as [|r rs IH]; intros w S B; simpl; [auto|].
    destruct (handle_seats_have_event w r S B). now apply IH. }
  destruct H as [S' B']. split; [assumption|]. split; [assumption|].
  intros d Hd E. destruct (S' d Hd) as (ev & Hev & Ee).
  specialize (B' ev Hev). rewrite Ee, E in B'. lia.
Qed.

Lemma seats_belong_to_events_witness :
  fresh_event
    (run emptyWorld [CreateEvent "E" "" ["A1"; "A2"];
                     Lock 0%N ["A1"] "u1" 60%float 100;
                     Confirm 0%N ["A1"] "u1" 200 201;
                     CreateEvent "F" "" ["A1"]]).
Proof.
  refine (proj2 (proj2 (seats_belong_to_events emptyWorld _ _ _))).
  - intros d [].
  - intros ev [].
Defined.

(* ------------------------------------------------------------------ *)
(** ** A seat number that names no seat *)

(** X21. A batch with a seat number that names no seat of the event is
    never served, and the three handlers differ in the answer: acquire
    answers 409, or 500 when its expiry is an Invalid Date; confirm answers
    409; release answers 404 or 409.  Heading the batch, the missing seat is
    named as unavailable by acquire (with a valid expiry), as not locked by
    confirm, and as not found by release.  The store is unchanged each
    time. *)
Theorem missing_seat w e s post ownerId :
  unique_index (seats w) -> truthy ownerId = true ->
  seatAt e s (seats w) = None ->
  (forall ttl now expiresAt, lockExpiry now ttl = Some expiresAt ->
     lock e (s :: post) ownerId ttl now w = (conflictUnavailable s, w))
  /\ (forall ttl now, lockExpiry now ttl = None ->
        lock e (s :: post) ownerId ttl now w = (castError, w))
  /\ (forall now stamp, confirm e (s :: post) ownerId now stamp w
                        = (conflictNotConfirmable s, w))
  /\ cancel e (s :: post) ownerId w = (notFound s, w)
  /\ (forall sns, In s sns ->
        (forall ttl now,
           (code (fst (lock e sns ownerId ttl now w)) = 409
            \/ code (fst (lock e sns ownerId ttl now w)) = 500)
           /\ snd (lock e sns ownerId ttl now w) = w)
        /\ (forall now stamp,
              code (fst (confirm e sns ownerId now stamp w)) = 409
              /\ snd (confirm e sns ownerId now stamp w) = w)
        /\ code (fst (cancel e sns ownerId w)) <> 200
        /\ snd (cancel e sns ownerId w) = w).
Proof.
  intros U Ho Hs. split; [|split; [|split; [|split]]].
  - intros ttl now x Hx.
    rewrite (lock_unfold _ _ _ _ _ x) by (assumption || discriminate).
    rewrite lockLoop_conflict_here; auto. rewrite Hs. discriminate.
  - intros ttl now Hx. apply lock_invalid; auto. discriminate.
  - intros now stamp. apply (confirm_blocked_at w e [] s post); auto.
    + intros ? [].
    + rewrite Hs. discriminate.
  - rewrite cancel_unfold by (assumption || discriminate).
    now rewrite cancel_step, Hs.
  - intros sns Hin.
    assert (Hne : sns <> []) by (intros ->; destruct Hin).
    split; [|split].
    + intros ttl now. destruct (lockExpiry now ttl) as [x|] eqn:Hx.
      * rewrite (lock_unfold _ _ _ _ _ x) by assumption.
        destruct (lockLoop _ _ _ _ _ _ _) as [r|[l tx]] eqn:Hl; simpl.
        -- split; [|reflexivity]. left.
           exact (lockLoop_inl_code _ _ _ _ _ _ _ _ Hl).
        -- exfalso.
           destruct (lockLoop_inr _ _ _ _ _ _ _ _ _ U Hl) as (_ & _ & A).
           destruct (A s Hin) as [d [Hd _]]. congruence.
      * rewrite lock_invalid by assumption. simpl. auto.
    + intros now stamp.
      destruct (confirm_cases e sns ownerId now stamp w)
        as [(found & _ & _ & Hf & _)|[Hc Hw]].
      * exfalso.
        destruct (confirmCheck_inr _ _ _ _ _ _ _ U Hf s Hin) as [d [Hd _]].
        congruence.
      * split; [|assumption]. destruct Hc as [Hc|Hc]; [|assumption].
        exfalso. revert Hc. rewrite confirm_unfold by assumption.
        destruct (confirmCheck _ _ _ _ _ _) as [r|f] eqn:Hl; simpl.
        -- rewrite (confirmCheck_inl_code _ _ _ _ _ _ _ Hl). discriminate.
        -- discriminate.
    + destruct (cancel_cases e sns ownerId w)
        as [(tx & _ & _ & Hl & _)|Hc]; [|exact Hc].
      exfalso. destruct (cancelLoop_inr _ _ _ _ _ U Hl) as (_ & A & _).
      destruct (A s Hin) as [d [Hd _]]. congruence.
Qed.

Lemma missing_seat_witness :
  cancel 0%N ["Z"; "C"] "u2" sampleWorld = (notFound "Z", sampleWorld)
  /\ lock 0%N ["Z"; "A"] "u2" 60%float 100 sampleWorld
     = (conflictUnavailable "Z", sampleWorld)
  /\ lock 0%N ["Z"; "A"] "u2" 9e12%float 100 sampleWorld
     = (castError, sampleWorld).
Proof.
  pose proof (missing_seat sampleWorld 0%N "Z" ["C"] "u2"
                ltac:(distinct) eq_refl eq_refl) as T1.
  pose proof (missing_seat sampleWorld 0%N "Z" ["A"] "u2"
                ltac:(distinct) eq_refl eq_refl) as T2.
  split; [|split].
  - exact (proj1 (proj2 (proj2 (proj2 T1)))).
  - exact (proj1 T2 60%float 100 60100 eq_refl).
  - exact (proj1 (proj2 T2) 9e12%float 100 eq_refl).
Defined.
